(** * optirun: the Bumblebee launcher client (src/optirun.c)

    A shallow embedding of [main] of optirun.c: option parsing with
    [getopt], the connection to the daemon, the status and application
    protocols, and the construction of the argument vectors handed to
    bbrun.c.  A run of the program is a function from the command line and
    from the answers of the outside world (the daemon, the kernel) to the
    list of observable actions and the way the process ends. *)

From Stdlib Require Import ZArith Ascii String Lia.
From stdpp Require Import base list strings.

Local Open Scope string_scope.
Local Open Scope list_scope.

(** ** Data model (bbconfig.h, as used by optirun.c) *)

(** The verbosity levels optirun.c assigns. *)
Inductive verbosity_level := VERB_NONE | VERB_WARN | VERB_INFO | VERB_DEBUG.

(** The run modes optirun.c assigns and tests. *)
Inductive bb_run_mode := BB_RUN_APP | BB_RUN_STATUS.

#[export] Instance verbosity_level_eq_dec : EqDecision verbosity_level.
Proof. solve_decision. Defined.

#[export] Instance bb_run_mode_eq_dec : EqDecision bb_run_mode.
Proof. solve_decision. Defined.

(** syslog priorities passed to [bb_log]. *)
Inductive log_level := LOG_ERR | LOG_WARNING | LOG_INFO | LOG_DEBUG.

Definition EXIT_SUCCESS : Z := 0.
Definition EXIT_FAILURE : Z := 1.

(** [bb_status]: the process-wide status structure. *)
Record bb_status_struct := {
  program_name : string;
  is_daemonized : Z;
  verbosity : verbosity_level;
  errors : string;
  runmode : bb_run_mode;
  bb_socket : Z
}.

(** [bb_config]: the four character buffers optirun.c reads and writes. *)
Record bb_config_struct := {
  x_display : string;
  ld_path : string;
  socket_path : string;
  vgl_compress : string
}.

Definition set_verbosity (v : verbosity_level) (s : bb_status_struct) :=
  {| program_name := program_name s; is_daemonized := is_daemonized s;
     verbosity := v; errors := errors s; runmode := runmode s;
     bb_socket := bb_socket s |}.

Definition set_runmode (m : bb_run_mode) (s : bb_status_struct) :=
  {| program_name := program_name s; is_daemonized := is_daemonized s;
     verbosity := verbosity s; errors := errors s; runmode := m;
     bb_socket := bb_socket s |}.

Definition set_socket (fd : Z) (s : bb_status_struct) :=
  {| program_name := program_name s; is_daemonized := is_daemonized s;
     verbosity := verbosity s; errors := errors s; runmode := runmode s;
     bb_socket := fd |}.

Definition set_x_display (v : string) (c : bb_config_struct) :=
  {| x_display := v; ld_path := ld_path c; socket_path := socket_path c;
     vgl_compress := vgl_compress c |}.

Definition set_ld_path (v : string) (c : bb_config_struct) :=
  {| x_display := x_display c; ld_path := v; socket_path := socket_path c;
     vgl_compress := vgl_compress c |}.

Definition set_socket_path (v : string) (c : bb_config_struct) :=
  {| x_display := x_display c; ld_path := ld_path c; socket_path := v;
     vgl_compress := vgl_compress c |}.

Definition set_vgl_compress (v : string) (c : bb_config_struct) :=
  {| x_display := x_display c; ld_path := ld_path c;
     socket_path := socket_path c; vgl_compress := v |}.

(** ** C library functions used by [main] *)

Module Libc.

(** C strings are modelled by [string]: the bytes before the terminating
    NUL. *)

(** [code c]: the value of a [char] as an [int]. *)
Definition code (c : ascii) : Z := Z.of_nat (nat_of_ascii c).

(** [strncmp a b n]: compares at most [n] characters, the terminating NUL
    included; zero when no difference was met. *)
Fixpoint strncmp (a b : string) (n : nat) : Z :=
  match n with
  | O => 0
  | S n' =>
      match a, b with
      | EmptyString, EmptyString => 0
      | EmptyString, String y _ => (0 - code y)%Z
      | String x _, EmptyString => code x
      | String x a', String y b' =>
          if Ascii.eqb x y then strncmp a' b' n' else (code x - code y)%Z
      end
  end.

(** A C string has no NUL before its end. *)
Fixpoint nul_free (s : string) : bool :=
  match s with
  | EmptyString => true
  | String c s' => negb (Ascii.eqb c "000") && nul_free s'
  end.

(** [snprintf(dst, n, "%s", src)]: what [dst] holds afterwards, given what it
    held before.  At most [n - 1] characters are stored; with [n = 0] nothing
    is written. *)
Definition snprintf_s (old : string) (n : nat) (src : string) : string :=
  match n with
  | O => old
  | S k => substring 0 k src
  end.

(** The return value of [snprintf] on a format without conversions: the
    length of the text, truncated or not. *)
Definition snprintf_ret (src : string) : Z := Z.of_nat (String.length src).

(** A character array and what follows it in memory: the bytes from the
    address of the array on.  Past the end of the list every byte is NUL. *)
Definition memory : Type := list ascii.

(** Writing [bytes] at the start of [mem]. *)
Definition poke (mem : memory) (bytes : list ascii) : memory :=
  bytes ++ drop (length bytes) mem.

(** The C string at the start of [mem]: the bytes before the first NUL.
    This is what [%s] prints of a pointer to [mem]. *)
Fixpoint cstring (mem : memory) : string :=
  match mem with
  | [] => EmptyString
  | c :: mem' => if Ascii.eqb c "000" then EmptyString else String c (cstring mem')
  end.

(** [snprintf(mem, n, src)] on a format without conversions, as it changes
    the memory: at most [n - 1] characters and a NUL are stored; with [n = 0]
    nothing is written. *)
Definition snprintf_mem (mem : memory) (n : nat) (src : string) : memory :=
  match n with
  | O => mem
  | S k => poke mem (list_ascii_of_string (substring 0 k src) ++ ["000"%char])
  end.

(** *** getopt

    POSIX [getopt] as glibc implements it for short options, for an option
    string that starts with [+] (stop at the first non-option, no
    permutation of [argv]) and has no optional arguments ([::]).  The state
    is glibc's: [optind], the rest of the element being scanned
    ([nextchar]) and [optarg]. *)

Record getopt_data := {
  optind : nat;
  nextchar : string;
  optarg : string
}.

Definition getopt_start : getopt_data :=
  {| optind := 1; nextchar := ""; optarg := "" |}.

Inductive has_arg := no_such_option | no_argument | required_argument.

(** [strchr(optstring, c)] and the test of the character that follows. *)
Fixpoint optlookup (optstring : string) (c : ascii) : has_arg :=
  match optstring with
  | EmptyString => no_such_option
  | String d rest =>
      if Ascii.eqb d c then
        match rest with
        | String ":" _ => required_argument
        | _ => no_argument
        end
      else optlookup rest c
  end.

(** The leading [+] or [-] of the option string only selects the ordering. *)
Definition skip_ordering (optstring : string) : string :=
  match optstring with
  | String "+" rest => rest
  | String "-" rest => rest
  | _ => optstring
  end.

(** Option character [c] has just been taken from element [ind] of [argv];
    [cs] is what is left of that element.  The result is the value [getopt]
    returns and the new state. *)
Definition take_option (argv : list string) (optstring : string)
    (c : ascii) (cs : string) (ind : nat) (old_optarg : string)
    : ascii * getopt_data :=
  let ind1 := if decide (cs = "") then S ind else ind in
  let kind := if decide (c = ":" ∨ c = ";")%char then no_such_option
              else optlookup optstring c in
  match kind with
  | no_such_option =>
      ("?"%char, {| optind := ind1; nextchar := cs; optarg := old_optarg |})
  | no_argument =>
      (c, {| optind := ind1; nextchar := cs; optarg := old_optarg |})
  | required_argument =>
      if decide (cs = "") then
        match argv !! ind1 with
        | None =>
            ("?"%char, {| optind := ind1; nextchar := ""; optarg := old_optarg |})
        | Some a =>
            (c, {| optind := S ind1; nextchar := ""; optarg := a |})
        end
      else (c, {| optind := S ind1; nextchar := ""; optarg := cs |})
  end.

(** One call of [getopt(argc, argv, optstring)]; [None] is the return
    value -1. *)
Definition getopt (argv : list string) (optstring : string) (d : getopt_data)
    : option ascii * getopt_data :=
  let opts := skip_ordering optstring in
  match nextchar d with
  | String c cs =>
      let '(r, d') := take_option argv opts c cs (optind d) (optarg d) in
      (Some r, d')
  | EmptyString =>
      match argv !! optind d with
      | None => (None, d)
      | Some w =>
          if decide (w = "--") then
            (None, {| optind := S (optind d); nextchar := "";
                      optarg := optarg d |})
          else
            match w with
            | String "-" (String c cs) =>
                let '(r, d') :=
                  take_option argv opts c cs (optind d) (optarg d) in
                (Some r, d')
            | _ => (None, d)
            end
      end
  end.

End Libc.

Import Libc.

(** ** The outside world

    bbsocket.c, bblogger.c, bbrun.c and bbconfig.c are other translation
    units of the repository; [main] only calls them.  What they do to the
    world is recorded as an [event]; what the world answers is read from a
    [world] record. *)

Inductive signal := SIGHUP | SIGINT | SIGQUIT | SIGTERM | SIGOTHER.

Inductive event :=
| Ev_signal (sig : signal)
| Ev_read_configuration
| Ev_print_usage (exit_val : Z)
| Ev_bb_init_log
| Ev_fprintf_stderr (msg : string)
| Ev_bb_log (lvl : log_level) (fmt : string) (args : list string)
| Ev_socketConnect (path : string)
| Ev_socketWrite (buf : string) (len : Z)
| Ev_socketRead
| Ev_socketClose
| Ev_printf (fmt : string) (args : list string)
| Ev_bb_run_exec (argv : list string)
| Ev_bb_run_fork (argv : list string)
| Ev_bb_run_fork_wait (argv : list string)
| Ev_bb_closelog
| Ev_bb_stop_all.

(** How the process ends. *)
Inductive outcome :=
| Exited (code : Z)              (* [return] from [main], or [exit] *)
| Replaced (argv : list string)  (* the process image was replaced *)
| ExecFailed                     (* the image could not be replaced *)
| Undefined                      (* an array was accessed out of bounds *)
| Diverges.                      (* the loop never ends *)

(** What one call of [socketRead] finds. *)
Inductive read_outcome :=
| rd_data (first : ascii) (rest : string)
| rd_nothing
| rd_closed.

Record world := {
  w_config : bb_config_struct;   (* [bb_config] after [read_configuration] *)
  w_init_log : Z;                (* what [bb_init_log] returns *)
  w_connect : Z;                 (* what [socketConnect] returns *)
  w_write_fails : bool;          (* [socketWrite] finds the peer gone *)
  w_reads : list read_outcome;   (* what the calls of [socketRead] find *)
  w_memory : memory;             (* what [buffer] and the bytes after it hold
                                    when [main] starts *)
  w_exec_fails : bool            (* [execvp] fails *)
}.

(** Modelled from the spec: [socketClose] of bbsocket.c, which is not under
    src/.  It closes the connection; the handle becomes the closed handle,
    which is what the loops of [main] test against -1. *)
Definition socketClose (st : bb_status_struct) : list event * bb_status_struct :=
  ([Ev_socketClose], set_socket (-1) st).

(** Modelled from the spec: [socketWrite] of bbsocket.c, which is not under
    src/.  It writes the request; a failure to write is treated as the peer
    having disappeared, that is, the connection is closed. *)
Definition socketWrite (w : world) (buf : string) (len : Z)
    (st : bb_status_struct) : list event * bb_status_struct :=
  ([Ev_socketWrite buf len],
   if w_write_fails w then set_socket (-1) st else st).

(** Modelled from the spec: [socketRead] of bbsocket.c, which is not under
    src/.  One call yields bytes (the first of them classified by [main]),
    nothing yet, or finds the connection closed (by the peer, or by
    [handle_signal] running during the call).  The bytes received are stored
    at the start of [buffer], over what it held; nothing else of it changes.
    The result is the byte count, the buffer and the status afterwards. *)
Definition socketRead (o : read_outcome) (st : bb_status_struct)
    (buffer : memory) : Z * memory * bb_status_struct :=
  match o with
  | rd_data c rest =>
      (Z.of_nat (S (String.length rest)),
       poke buffer (list_ascii_of_string (String c rest)), st)
  | rd_nothing => (0%Z, buffer, st)
  | rd_closed => (0%Z, buffer, set_socket (-1) st)
  end.

(** Modelled from the spec: [bb_run_exec] of bbrun.c, which is not under
    src/.  It replaces the current process image with [argv]: no return on
    success; on failure the process exits with a failure status. *)
Definition bb_run_exec (w : world) (argv : list string) : list event * outcome :=
  ([Ev_bb_run_exec argv],
   if w_exec_fails w then ExecFailed else Replaced argv).

(** ** optirun.c *)

(** [handle_signal]: hangup is logged and ignored, the terminating signals
    close the socket, anything else is logged. *)
Definition handle_signal (sig : signal) (st : bb_status_struct)
    : list event * bb_status_struct :=
  match sig with
  | SIGHUP =>
      ([Ev_bb_log LOG_WARNING "Received %s signal (ignoring...)\n" []], st)
  | SIGINT | SIGQUIT | SIGTERM =>
      let '(ev, st') := socketClose st in
      (Ev_bb_log LOG_WARNING "Received %s signal.\n" [] :: ev, st')
  | SIGOTHER =>
      ([Ev_bb_log LOG_WARNING "Unhandled signal %s\n" []], st)
  end.

(** [print_usage]: prints the help text and calls [exit(exit_val)]. *)
Definition print_usage (exit_val : Z) : list event * outcome :=
  ([Ev_print_usage exit_val], Exited exit_val).

(** The option string [main] passes to [getopt]. *)
Definition optstring : string := "+cvVm:X:l:u:h|help".

(** The arrays handed to bbrun.c: a cell holds a pointer to a string, the
    null pointer, or whatever [malloc] left there. *)
Inductive cell := Uninit | Null | Ptr (s : string).

Definition malloc (n : nat) : list cell := replicate n Uninit.

(** [a[i] = v], undefined (None) out of bounds. *)
Definition store (a : list cell) (i : nat) (v : cell) : option (list cell) :=
  if decide (i < length a)%nat then Some (<[i:=v]> a) else None.

(** The argument vector a null-terminated array denotes: the strings before
    the first null pointer.  Undefined when no null pointer ends it. *)
Fixpoint argv_of (a : list cell) : option (list string) :=
  match a with
  | [] => None
  | Uninit :: _ => None
  | Null :: _ => Some []
  | Ptr s :: a' => l ← argv_of a'; Some (s :: l)
  end.

(** What a step of [main] leaves behind: the actions performed, and the
    value to go on with or the end of the process. *)
Inductive flow (A : Type) := Go (a : A) | End (o : outcome).
Arguments Go {A} a.
Arguments End {A} o.

Definition proc (A : Type) : Type := list event * flow A.

Definition emit (ev : list event) : proc unit := (ev, Go tt).
Definition halt {A : Type} (ev : list event) (o : outcome) : proc A :=
  (ev, End o).

#[export] Instance proc_ret : MRet proc := λ A a, ([], Go a).

#[export] Instance proc_bind : MBind proc := λ A B k m,
  match m with
  | (ev, Go a) => let '(ev', r) := k a in (ev ++ ev', r)
  | (ev, End o) => (ev, End o)
  end.

(** ** Concrete runs

    The runs below take 1024 for [BUFFER_SIZE]; any value that holds the
    two request strings gives the same runs. *)

Definition sample_config : bb_config_struct :=
  {| x_display := ":8";
     ld_path := "/usr/lib/nvidia-current";
     socket_path := "/var/run/bumblebee.socket";
     vgl_compress := "proxy" |}.

(** The daemon is there and answers [c] followed by [rest] at the second
    read. *)
Definition world_reply (c : ascii) (rest : string) : world :=
  {| w_config := sample_config;
     w_init_log := 0;
     w_connect := 3;
     w_write_fails := false;
     w_reads := [rd_nothing; rd_data c rest];
     w_memory := [];
     w_exec_fails := false |}.

(** The daemon is not running. *)
Definition world_unreachable : world :=
  {| w_config := sample_config;
     w_init_log := 0;
     w_connect := -1;
     w_write_fails := false;
     w_reads := [];
     w_memory := [];
     w_exec_fails := false |}.

(** The daemon goes away before it answers. *)
Definition world_closed : world :=
  {| w_config := sample_config;
     w_init_log := 0;
     w_connect := 3;
     w_write_fails := false;
     w_reads := [rd_nothing; rd_closed];
     w_memory := [];
     w_exec_fails := false |}.

(** The request cannot be written. *)
Definition world_write_fails : world :=
  {| w_config := sample_config;
     w_init_log := 0;
     w_connect := 3;
     w_write_fails := true;
     w_reads := [rd_data "Y" "es"];
     w_memory := [];
     w_exec_fails := false |}.

(** The log cannot be initialised. *)
Definition world_no_log : world :=
  {| w_config := sample_config;
     w_init_log := 1;
     w_connect := 3;
     w_write_fails := false;
     w_reads := [rd_data "Y" "es"];
     w_memory := [];
     w_exec_fails := false |}.

Definition sample_status : bb_status_struct :=
  {| program_name := "optirun";
     is_daemonized := 0;
     verbosity := VERB_WARN;
     errors := "";
     runmode := BB_RUN_APP;
     bb_socket := 0 |}.

(** optirun -m jpeg -X :0 -l /usr/lib app --flag *)
Definition argv_jpeg : list string :=
  ["optirun"; "-m"; "jpeg"; "-X"; ":0"; "-l"; "/usr/lib"; "app"; "--flag"].

Definition config_jpeg : bb_config_struct :=
  {| x_display := ":0";
     ld_path := "/usr/lib";
     socket_path := "/var/run/bumblebee.socket";
     vgl_compress := "jpeg" |}.

Definition getopt_jpeg : getopt_data :=
  {| optind := 7; nextchar := ""; optarg := "/usr/lib" |}.

(** optirun glxgears *)
Definition argv_glxgears : list string := ["optirun"; "glxgears"].

Definition getopt_glxgears : getopt_data :=
  {| optind := 1; nextchar := ""; optarg := "" |}.

Section Optirun.

(** [BUFFER_SIZE] is defined in bbconfig.h, which is not under src/: the
    development is parametric in it. *)
Variable BUFFER_SIZE : nat.

(** *** Option parsing (optirun.c, lines 90-133) *)

(** The assignments before the option loop. *)
Definition init_status (argv : list string) : bb_status_struct :=
  {| program_name := default "" (argv !! 0);
     is_daemonized := 0;
     verbosity := VERB_WARN;
     errors := "";
     runmode := BB_RUN_APP;
     bb_socket := 0 |}.

Inductive parse_result :=
| Parsed (st : bb_status_struct) (cfg : bb_config_struct) (d : getopt_data)
| Usage (exit_val : Z)
| NoFuel.

(** The body of the [switch (c)] of the option loop: the new status and
    configuration, or the exit value [print_usage] is called with. *)
Definition option_switch (c : ascii) (optarg : string)
    (st : bb_status_struct) (cfg : bb_config_struct)
    : bb_status_struct * bb_config_struct + Z :=
  match c with
  | "h"%char => inr EXIT_SUCCESS
  | "q"%char => inl (set_verbosity VERB_NONE st, cfg)
  | "v"%char =>
      match verbosity st with
      | VERB_INFO => inl (set_verbosity VERB_DEBUG st, cfg)
      | _ => inl (set_verbosity VERB_INFO st, cfg)
      end
  | "X"%char =>
      inl (st, set_x_display (snprintf_s (x_display cfg) BUFFER_SIZE optarg) cfg)
  | "l"%char =>
      inl (st, set_ld_path (snprintf_s (ld_path cfg) BUFFER_SIZE optarg) cfg)
  | "u"%char =>
      inl (st, set_socket_path (snprintf_s (socket_path cfg) BUFFER_SIZE optarg) cfg)
  | "m"%char =>
      inl (st, set_vgl_compress (snprintf_s (vgl_compress cfg) BUFFER_SIZE optarg) cfg)
  | _ => inr EXIT_FAILURE
  end.

(** [while ((c = getopt(argc, argv, optstring)) != -1) switch (c) ...] *)
Fixpoint parse_loop (fuel : nat) (argv : list string)
    (st : bb_status_struct) (cfg : bb_config_struct) (d : getopt_data)
    : parse_result :=
  match fuel with
  | O => NoFuel
  | S fuel' =>
      match getopt argv optstring d with
      | (None, d') => Parsed st cfg d'
      | (Some c, d') =>
          match option_switch c (optarg d') st cfg with
          | inl (st', cfg') => parse_loop fuel' argv st' cfg' d'
          | inr exit_val => Usage exit_val
          end
      end
  end.

(** The characters of a list of arguments, one more for each argument. *)
Definition argv_size (l : list string) : nat :=
  foldr (λ x n, S (String.length x) + n)%nat 0%nat l.

(** What [getopt] has not scanned yet: the rest of the current element and
    the elements after it. *)
Definition left_to_scan (argv : list string) (d : getopt_data) : nat :=
  match nextchar d with
  | EmptyString => argv_size (drop (optind d) argv)
  | String _ cs => (S (String.length cs) + argv_size (drop (S (optind d)) argv))%nat
  end.

(** Every call of [getopt] that finds an option consumes a character of
    [argv]: this many iterations are enough. *)
Definition parse_fuel (argv : list string) : nat := S (argv_size argv).

Definition parse_options (w : world) (argv : list string) : parse_result :=
  parse_loop (parse_fuel argv) argv (init_status argv) (w_config w) getopt_start.

(** The state the two read loops work on: [bb_status], the answers of the
    world not consumed yet, and [buffer]. *)
Definition loop_state : Type := bb_status_struct * list read_outcome * memory.

(** *** Status mode (lines 160-170) *)

Definition status_request : string := "Status?".
Definition app_request : string := "Checking availability...".

(** [while (bb_status.bb_socket != -1)] of the status request: every call of
    [socketRead] takes the next answer of the world.  [printf] is given
    [r] and [buffer] for [%*s], where [r] is a minimum width: the event
    records the C string found at [buffer], which is what is printed (after
    blanks, when it is shorter than [r]). *)
Fixpoint status_loop (reads : list read_outcome) (buffer : memory)
    (st : bb_status_struct) : proc loop_state :=
  if decide (bb_socket st = -1)%Z then ([], Go (st, reads, buffer))
  else
    match reads with
    | [] => ([], End Diverges)
    | o :: reads' =>
        let '(r, buffer1, st1) := socketRead o st buffer in
        if decide (0 < r)%Z then
          let '(ev, st2) := socketClose st1 in
          let '(evs, res) := status_loop reads' buffer1 st2 in
          (Ev_socketRead
             :: Ev_printf "Bumblebee status: %*s\n" [cstring buffer1]
             :: ev ++ evs, res)
        else
          let '(evs, res) := status_loop reads' buffer1 st1 in
          (Ev_socketRead :: evs, res)
    end.

(** *** Application mode (lines 173-220) *)

(** The argument vector of the detached vglclient. *)
Definition vglclient_args : list cell := [Ptr "vglclient"; Ptr "-detach"; Null].

(** [for (r = 0; r < argc - optind; r++) vglrun_args[8 + r] = argv[optind + r];]
    with [n] iterations left.  Returns the array and the final [r]. *)
Fixpoint copy_args (n : nat) (argv : list string) (optind r : nat)
    (a : list cell) : option (list cell * nat) :=
  match n with
  | O => Some (a, r)
  | S n' =>
      x ← argv !! (optind + r);
      a' ← store a (8 + r) (Ptr x);
      copy_args n' argv optind (S r) a'
  end.

(** Lines 197-209: allocation and filling of [vglrun_args]. *)
Definition build_vglrun_args (argv : list string) (optind : nat)
    (cfg : bb_config_struct) : option (list cell) :=
  let argc := length argv in
  let a := malloc (9 + argc - optind) in
  a ← store a 0 (Ptr "vglrun");
  a ← store a 1 (Ptr "-c");
  a ← store a 2 (Ptr (vgl_compress cfg));
  a ← store a 3 (Ptr "-d");
  a ← store a 4 (Ptr (x_display cfg));
  a ← store a 5 (Ptr "-ld");
  a ← store a 6 (Ptr (ld_path cfg));
  a ← store a 7 (Ptr "--");
  '(a, r) ← copy_args (argc - optind) argv optind 0 a;
  store a (8 + r) Null.

(** The [switch (buffer[0])] of the application loop, for a reply held at
    the start of [buffer] whose first byte is [first].  [bb_log] is given
    [r] and [buffer] for [%*s], where [r] is a minimum width: the event
    records the C string found at [buffer], which is what is logged (after
    blanks, when it is shorter than [r]). *)
Definition verdict_switch (w : world) (argv : list string) (optind : nat)
    (cfg : bb_config_struct) (first : ascii) (buffer : memory)
    (st : bb_status_struct) : proc bb_status_struct :=
  match first with
  | "N"%char =>
      let '(ev, st1) := socketClose st in
      let '(evx, o) := bb_run_exec w (drop optind argv) in
      (ev ++ Ev_bb_log LOG_WARNING "Running application normally.\n" [] :: evx,
       End o)
  | "Y"%char =>
      let ev_log :=
        [Ev_bb_log LOG_INFO "Running application through vglrun.\n" []] in
      let ev_client :=
        if decide (strncmp (vgl_compress cfg) "proxy" BUFFER_SIZE ≠ 0%Z)
        then match argv_of vglclient_args with
             | Some l => [Ev_bb_run_fork l]
             | None => []
             end
        else [] in
      match build_vglrun_args argv optind cfg ≫= argv_of with
      | None => (ev_log ++ ev_client, End Undefined)
      | Some vglrun_args =>
          let '(ev, st1) := socketClose st in
          (ev_log ++ ev_client ++ Ev_bb_run_fork_wait vglrun_args :: ev, Go st1)
      end
  | _ =>
      let '(ev, st1) := socketClose st in
      (Ev_bb_log LOG_ERR "Problem: %*s\n" [cstring buffer] :: ev, Go st1)
  end.

(** [buffer[0]] *)
Definition first_byte (buffer : memory) : ascii :=
  match buffer with
  | c :: _ => c
  | [] => "000"%char
  end.

(** [while (bb_status.bb_socket != -1)] of the application request. *)
Fixpoint app_loop (w : world) (argv : list string) (optind : nat)
    (cfg : bb_config_struct) (reads : list read_outcome) (buffer : memory)
    (st : bb_status_struct) : proc loop_state :=
  if decide (bb_socket st = -1)%Z then ([], Go (st, reads, buffer))
  else
    match reads with
    | [] => ([], End Diverges)
    | o :: reads' =>
        let '(r, buffer1, st1) := socketRead o st buffer in
        if decide (0 < r)%Z then
          let ev_resp :=
            Ev_bb_log LOG_INFO "Response: %*s\n" [cstring buffer1] in
          match verdict_switch w argv optind cfg (first_byte buffer1) buffer1
                  st1 with
          | (ev, Go st2) =>
              let '(evs, res) :=
                app_loop w argv optind cfg reads' buffer1 st2 in
              (Ev_socketRead :: ev_resp :: ev ++ evs, res)
          | (ev, End o) => (Ev_socketRead :: ev_resp :: ev, End o)
          end
        else
          let '(evs, res) := app_loop w argv optind cfg reads' buffer1 st1 in
          (Ev_socketRead :: evs, res)
    end.

(** *** main *)

(** Lines 98-133, as a step of [main]. *)
Definition parse_step (w : world) (argv : list string)
    : proc (bb_status_struct * bb_config_struct * getopt_data) :=
  match parse_options w argv with
  | Parsed st cfg d => ([], Go (st, cfg, d))
  | Usage v => let '(ev, o) := print_usage v in (ev, End o)
  | NoFuel => ([], End Diverges)
  end.

(** Lines 138-140: without an application to run, the run mode becomes the
    status mode. *)
Definition resolve_runmode (argc : nat) (d : getopt_data)
    (st : bb_status_struct) : bb_status_struct :=
  if decide (runmode st = BB_RUN_APP ∧ (argc ≤ optind d)%nat)
  then set_runmode BB_RUN_STATUS st else st.

Definition main (w : world) (argv : list string) : proc Z :=
  let argc := length argv in
  emit [Ev_signal SIGHUP; Ev_signal SIGTERM; Ev_signal SIGINT;
        Ev_signal SIGQUIT; Ev_read_configuration];;
  '(st, cfg, d) ← parse_step w argv;
  let st := resolve_runmode argc d st in
  emit [Ev_bb_init_log];;
  if decide (w_init_log w ≠ 0%Z) then
    (halt [Ev_fprintf_stderr "Unexpected error, could not initialize log.\n"]
          (Exited 1) : proc Z)
  else
  emit [Ev_bb_log LOG_DEBUG "%s version %s starting...\n" [program_name st];
        Ev_socketConnect (socket_path cfg)];;
  let st := set_socket (w_connect w) st in
  if decide (bb_socket st < 0)%Z then
    (halt [Ev_bb_log LOG_ERR
             "Could not connect to bumblebee daemon - is it running?\n" [];
           Ev_bb_closelog]
          (Exited EXIT_FAILURE) : proc Z)
  else
  let buffer := w_memory w in
  '(st, reads, buffer) ←
    (if decide (runmode st = BB_RUN_STATUS) then
       let buffer := snprintf_mem buffer BUFFER_SIZE status_request in
       let r := snprintf_ret status_request in
       let '(ev, st) :=
         socketWrite w (snprintf_s "" BUFFER_SIZE status_request) r st in
       emit ev;; status_loop (w_reads w) buffer st
     else (mret (st, w_reads w, buffer) : proc loop_state));
  '(st, reads, buffer) ←
    (if decide (runmode st = BB_RUN_APP) then
       let buffer := snprintf_mem buffer BUFFER_SIZE app_request in
       let r := snprintf_ret app_request in
       let '(ev, st) :=
         socketWrite w (snprintf_s "" BUFFER_SIZE app_request) r st in
       emit ev;; app_loop w argv (optind d) cfg reads buffer st
     else (mret (st, reads, buffer) : proc loop_state));
  emit [Ev_bb_closelog; Ev_bb_stop_all];;
  (mret EXIT_SUCCESS : proc Z).

(** A run of the program: the actions performed, in order, and the way the
    process ends. *)
Definition run (w : world) (argv : list string) : list event * outcome :=
  match main w argv with
  | (ev, Go code) => (ev, Exited code)
  | (ev, End o) => (ev, o)
  end.

(** ** Observations on a run *)

(** The process operations of bbrun.c among the actions of a run. *)
Definition is_spawn (e : event) : bool :=
  match e with
  | Ev_bb_run_exec _ | Ev_bb_run_fork _ | Ev_bb_run_fork_wait _ => true
  | _ => false
  end.

Definition spawns (tr : list event) : list event :=
  List.filter is_spawn tr.

(** The requests written to the socket. *)
Definition requests (tr : list event) : list (string * Z) :=
  omap (λ e, match e with Ev_socketWrite b n => Some (b, n) | _ => None end) tr.

(** The number of calls of [socketRead]. *)
Definition reads_done (tr : list event) : nat :=
  length (List.filter (λ e, match e with Ev_socketRead => true | _ => false end) tr).

(** The number of calls of [socketClose]. *)
Definition closes_done (tr : list event) : nat :=
  length (List.filter (λ e, match e with Ev_socketClose => true | _ => false end) tr).

(** The connection is closed before anything but logging is done. *)
Fixpoint closes_first (tr : list event) : bool :=
  match tr with
  | Ev_socketClose :: _ => true
  | Ev_bb_log _ _ _ :: tl => closes_first tl
  | _ => false
  end.

(** The actions of [main] up to and including the connection attempt. *)
Definition startup (st : bb_status_struct) (cfg : bb_config_struct)
    : list event :=
  [Ev_signal SIGHUP; Ev_signal SIGTERM; Ev_signal SIGINT; Ev_signal SIGQUIT;
   Ev_read_configuration; Ev_bb_init_log;
   Ev_bb_log LOG_DEBUG "%s version %s starting...\n" [program_name st];
   Ev_socketConnect (socket_path cfg)].

(** The wrapper argument vector of optirun.c, lines 198-208. *)
Definition vglrun_argv (cfg : bb_config_struct) (args : list string)
    : list string :=
  ["vglrun"; "-c"; vgl_compress cfg; "-d"; x_display cfg; "-ld"; ld_path cfg;
   "--"] ++ args.

(** An invocation that reaches the application protocol: the options were
    accepted and left the status [st], the configuration [cfg] and the
    [getopt] state [d]; a command follows the options; the log and the
    connection were opened and the request was written. *)
Definition application_mode (w : world) (argv : list string)
    (st : bb_status_struct) (cfg : bb_config_struct) (d : getopt_data)
    : Prop :=
  parse_options w argv = Parsed st cfg d
  ∧ (optind d < length argv)%nat
  ∧ w_init_log w = 0%Z
  ∧ (0 ≤ w_connect w)%Z
  ∧ w_write_fails w = false.

(** The first reply of the daemon that carries bytes is [c] followed by
    [rest]; [k] reads before it brought nothing, [more] is what the world
    would answer afterwards. *)
Definition first_reply (w : world) (k : nat) (c : ascii) (rest : string)
    (more : list read_outcome) : Prop :=
  w_reads w = replicate k rd_nothing ++ rd_data c rest :: more.

(** What [%s] finds in [buffer] after the reply [c], [rest] was received
    over the request [request]: the reply, and after it what the buffer held
    there before, up to the first NUL. *)
Definition reply_text (w : world) (request : string) (c : ascii)
    (rest : string) : string :=
  cstring (poke (snprintf_mem (w_memory w) BUFFER_SIZE request)
             (list_ascii_of_string (String c rest))).

(** The actions of an application run up to the dispatch on the verdict. *)
Definition until_verdict (st : bb_status_struct) (cfg : bb_config_struct)
    (k : nat) (buffer : string) : list event :=
  startup st cfg
    ++ [Ev_socketWrite (snprintf_s "" BUFFER_SIZE app_request) 24]
    ++ replicate (S k) Ev_socketRead
    ++ [Ev_bb_log LOG_INFO "Response: %*s\n" [buffer]].

(** The verbosity after [n] options -v on the command line: the switch sets
    VERB_DEBUG when the level is VERB_INFO, and VERB_INFO otherwise. *)
Definition verbose_level (n : nat) : verbosity_level :=
  match n with
  | O => VERB_WARN
  | S _ => if Nat.odd n then VERB_INFO else VERB_DEBUG
  end.

(** An element of [argv] that [getopt] scans for options: a dash followed by
    at least one character. *)
Definition is_option_word (x : string) : bool :=
  match x with
  | String "-" (String _ _) => true
  | _ => false
  end.

(** Every buffer of [bb_config] holds a string with its terminating NUL:
    less than [BUFFER_SIZE] characters. *)
Definition config_fits (cfg : bb_config_struct) : Prop :=
  (String.length (x_display cfg) < BUFFER_SIZE)%nat
  ∧ (String.length (ld_path cfg) < BUFFER_SIZE)%nat
  ∧ (String.length (socket_path cfg) < BUFFER_SIZE)%nat
  ∧ (String.length (vgl_compress cfg) < BUFFER_SIZE)%nat.

(** An invocation that reaches the status protocol: the options were
    accepted, no command follows them, the log and the connection were
    opened and the request was written. *)
Definition status_mode (w : world) (argv : list string)
    (st : bb_status_struct) (cfg : bb_config_struct) (d : getopt_data)
    : Prop :=
  parse_options w argv = Parsed st cfg d
  ∧ (length argv ≤ optind d)%nat
  ∧ w_init_log w = 0%Z
  ∧ (0 ≤ w_connect w)%Z
  ∧ w_write_fails w = false.

(** What the switch of the option loop does to the status for -v. *)
Definition more_verbose (st : bb_status_struct) : bb_status_struct :=
  match verbosity st with
  | VERB_INFO => set_verbosity VERB_DEBUG st
  | _ => set_verbosity VERB_INFO st
  end.

(** The number of elements [getopt] consumes when it stops at the head of
    [rest]: the separator is consumed, a command is not. *)
Definition separator_width (rest : list string) : nat :=
  match rest with
  | x :: _ => if decide (x = "--") then 1%nat else 0%nat
  | [] => 0%nat
  end.

(** [getopt] stops at the head of [rest]: there is nothing left, or the
    separator, or something that is not an option. *)
Definition ends_options (rest : list string) : Prop :=
  ∀ x, head rest = Some x → x = "--" ∨ is_option_word x = false.

(** What [getopt] keeps true of its state: [optind] stays within [argv],
    and strictly within it while an element is being scanned. *)
Definition optind_ok (argv : list string) (d : getopt_data) : Prop :=
  (1 ≤ optind d ≤ length argv)%nat
  ∧ (nextchar d ≠ "" → optind d < length argv)%nat.

(** The option letters the switch of the option loop has a case for, -q
    apart. *)
Definition handled_option (c : ascii) : bool :=
  match c with
  | "h"%char | "v"%char | "X"%char | "l"%char | "u"%char | "m"%char => true
  | _ => false
  end.

(** ** Arrays and argument vectors *)

Lemma store_in_bounds (a : list cell) (i : nat) (v : cell) :
  (i < length a)%nat → store a i v = Some (<[i:=v]> a).
Proof. intros Hi. unfold store. by rewrite decide_True. Qed.

Lemma store_next (filled : list cell) (m : nat) (v : cell) :
  store (filled ++ replicate (S m) Uninit) (length filled) v
  = Some ((filled ++ [v]) ++ replicate m Uninit).
Proof.
  rewrite store_in_bounds.
  - f_equal. replace (length filled) with (length filled + 0)%nat at 1 by lia.
    rewrite insert_app_r. simpl. by rewrite <- app_assoc.
  - rewrite length_app, length_replicate. lia.
Qed.

Lemma argv_of_terminated (l : list string) (rest : list cell) :
  argv_of (map Ptr l ++ Null :: rest) = Some l.
Proof.
  induction l as [|x l IH]; simpl; [done|]. by rewrite IH.
Qed.

(** The copy loop fills the cells after the ones already written with the
    next [n] elements of [argv], in order, and stays within an array that has
    room for them. *)
Lemma copy_args_spec (argv : list string) (oi : nat) :
  ∀ (n r m : nat) (filled : list cell),
    length filled = (8 + r)%nat →
    (oi + r + n ≤ length argv)%nat →
    (n ≤ m)%nat →
    copy_args n argv oi r (filled ++ replicate m Uninit)
    = Some (filled ++ map Ptr (take n (drop (oi + r) argv))
              ++ replicate (m - n) Uninit, (r + n)%nat).
Proof.
  induction n as [|n IH]; intros r m filled Hlen Hargs Hroom;
    cbn [copy_args].
  - rewrite Nat.sub_0_r, Nat.add_0_r. by destruct (drop (oi + r) argv).
  - destruct (lookup_lt_is_Some_2 argv (oi + r)) as [x Hx]; [lia|].
    rewrite Hx. cbn [mbind option_bind].
    destruct m as [|m]; [lia|].
    rewrite <- Hlen, store_next. cbn [mbind option_bind].
    rewrite (IH (S r) m (filled ++ [Ptr x])).
    + rewrite (drop_S _ _ _ Hx). simpl.
      replace (oi + S r)%nat with (S (oi + r)) by lia.
      rewrite <- app_assoc. simpl.
      do 2 f_equal. lia.
    + rewrite length_app. simpl. lia.
    + lia.
    + lia.
Qed.

(** The array [main] builds for vglrun: the eight fixed cells, the trailing
    arguments, the null pointer; nothing is left uninitialised and no store
    falls outside the allocation. *)
Lemma build_vglrun_args_spec (argv : list string) (oi : nat)
    (cfg : bb_config_struct) :
  (oi ≤ length argv)%nat →
  build_vglrun_args argv oi cfg
  = Some (map Ptr (vglrun_argv cfg (drop oi argv)) ++ [Null]).
Proof.
  intros Hoi. unfold build_vglrun_args, malloc.
  replace (9 + length argv - oi)%nat with (9 + (length argv - oi))%nat by lia.
  set (n := (length argv - oi)%nat).
  simpl.
  pose proof (copy_args_spec argv oi n 0 (S n)
    [Ptr "vglrun"; Ptr "-c"; Ptr (vgl_compress cfg); Ptr "-d";
     Ptr (x_display cfg); Ptr "-ld"; Ptr (ld_path cfg); Ptr "--"]) as Hcopy.
  simpl in Hcopy. rewrite Hcopy by (subst n; simpl; lia).
  simpl. rewrite Nat.add_0_r.
  rewrite take_ge by (rewrite length_drop; subst n; lia).
  replace (S n - n)%nat with 1%nat by lia. simpl.
  rewrite store_in_bounds.
  - simpl. do 8 f_equal.
    replace n with (length (map Ptr (drop oi argv)) + 0)%nat
      by (rewrite length_map, length_drop; subst n; lia).
    by rewrite insert_app_r.
  - simpl. rewrite length_app, length_map, length_drop. simpl. subst n. lia.
Qed.

(** ** Option parsing never touches the run mode *)

Lemma option_switch_runmode (c : ascii) (oa : string)
    (st st' : bb_status_struct) (cfg cfg' : bb_config_struct) :
  option_switch c oa st cfg = inl (st', cfg') → runmode st' = runmode st.
Proof.
  unfold option_switch.
  destruct c as [[] [] [] [] [] [] [] []]; try discriminate;
    try (intros [= <- _]; reflexivity).
  destruct (verbosity st); intros [= <- _]; reflexivity.
Qed.

Lemma parse_loop_runmode (argv : list string) :
  ∀ (fuel : nat) (st : bb_status_struct) (cfg : bb_config_struct)
    (d : getopt_data) st' cfg' d',
    parse_loop fuel argv st cfg d = Parsed st' cfg' d' →
    runmode st' = runmode st.
Proof.
  induction fuel as [|fuel IH]; intros st cfg d st' cfg' d'; simpl;
    [discriminate|].
  destruct (getopt argv optstring d) as [[c|] d1].
  - destruct (option_switch c (optarg d1) st cfg) as [[st1 cfg1]|v] eqn:Hsw;
      [|discriminate].
    intros Hloop. apply IH in Hloop. rewrite Hloop.
    by eapply option_switch_runmode.
  - by intros [= <- _ _].
Qed.

Lemma parse_options_runmode (w : world) (argv : list string) st cfg d :
  parse_options w argv = Parsed st cfg d → runmode st = BB_RUN_APP.
Proof. intros H. by apply parse_loop_runmode in H. Qed.

(** ** The option loop ends

    Every call of [getopt] that returns an option leaves less of [argv] to
    scan, so the fuel of [parse_options] is never used up. *)

Lemma argv_size_drop (argv : list string) (n : nat) :
  (argv_size (drop (S n) argv) ≤ argv_size (drop n argv))%nat.
Proof.
  revert n. induction argv as [|x argv IH]; intros n; [by destruct n|].
  destruct n as [|n]; cbn.
  - rewrite drop_0. lia.
  - apply IH.
Qed.

Lemma argv_size_lookup (argv : list string) (n : nat) (x : string) :
  argv !! n = Some x →
  argv_size (drop n argv)
  = (S (String.length x) + argv_size (drop (S n) argv))%nat.
Proof. intros Hx. by rewrite (drop_S _ _ _ Hx). Qed.

Lemma take_option_left (argv : list string) (opts : string) (c : ascii)
    (cs : string) (oi : nat) (oa : string) (r : ascii) (d' : getopt_data) :
  take_option argv opts c cs oi oa = (r, d') →
  (left_to_scan argv d' ≤ String.length cs + argv_size (drop (S oi) argv))%nat.
Proof.
  unfold take_option, left_to_scan.
  pose proof (argv_size_drop argv (S oi)) as Hmono.
  destruct (if decide (c = ":"%char ∨ c = ";"%char) then no_such_option
            else optlookup opts c);
    destruct (decide (cs = "")) as [->|Hcs];
    try destruct (argv !! S oi) as [a|];
    intros [= _ <-]; cbn [optind nextchar String.length];
    first [lia | destruct cs; [done | cbn [String.length]; lia]].
Qed.

Lemma getopt_left (argv : list string) (d d' : getopt_data) (r : ascii) :
  getopt argv optstring d = (Some r, d') →
  (left_to_scan argv d' < left_to_scan argv d)%nat.
Proof.
  unfold getopt. destruct (nextchar d) as [|c cs] eqn:Hnext.
  - destruct (argv !! optind d) as [x|] eqn:Hw; [|discriminate].
    destruct (decide (x = "--")); [discriminate|].
    destruct x as [|[[] [] [] [] [] [] [] []] [|c cs]]; try discriminate.
    destruct (take_option _ _ _ _ _ _) as [r' d1] eqn:Htake.
    intros [= _ <-]. apply take_option_left in Htake.
    unfold left_to_scan at 2. rewrite Hnext, (argv_size_lookup _ _ _ Hw).
    cbn [String.length]. lia.
  - destruct (take_option _ _ _ _ _ _) as [r' d1] eqn:Htake.
    intros [= _ <-]. apply take_option_left in Htake.
    unfold left_to_scan at 2. rewrite Hnext. cbn [String.length]. lia.
Qed.

Lemma parse_loop_ends (argv : list string) :
  ∀ (fuel : nat) (st : bb_status_struct) (cfg : bb_config_struct)
    (d : getopt_data),
    (left_to_scan argv d < fuel)%nat →
    parse_loop fuel argv st cfg d ≠ NoFuel.
Proof.
  induction fuel as [|fuel IH]; intros st cfg d Hfuel; [lia|].
  cbn [parse_loop].
  destruct (getopt argv optstring d) as [[c|] d1] eqn:Hget; [|done].
  destruct (option_switch c (optarg d1) st cfg) as [[st1 cfg1]|v]; [|done].
  apply IH. apply getopt_left in Hget. lia.
Qed.

(** Option parsing always comes to an end: with the options accepted, or
    with the usage message. *)
Lemma parse_options_ends (w : world) (argv : list string) :
  parse_options w argv ≠ NoFuel.
Proof.
  apply parse_loop_ends. unfold left_to_scan, parse_fuel.
  cbn [getopt_start nextchar optind].
  pose proof (argv_size_drop argv 0) as H. rewrite drop_0 in H. lia.
Qed.

(** ** getopt never reports the option q *)

Lemma take_option_known (argv : list string) (opts : string) (c : ascii)
    (cs : string) (oi : nat) (oa : string) (r : ascii) (d' : getopt_data) :
  take_option argv opts c cs oi oa = (r, d') →
  r = "?"%char ∨ (r = c ∧ optlookup opts c ≠ no_such_option).
Proof.
  unfold take_option.
  destruct (decide (c = ":"%char ∨ c = ";"%char)) as [Hc|Hc];
    [intros [= <- _]; by left|].
  destruct (optlookup opts c) eqn:Hlook.
  - intros [= <- _]. by left.
  - intros [= <- _]. by right.
  - destruct (decide (cs = "")); [destruct (argv !! S oi)|];
      intros [= <- _]; (by left) || by right.
Qed.

Lemma getopt_never_q (argv : list string) (d d' : getopt_data) (r : ascii) :
  getopt argv optstring d = (Some r, d') → r ≠ "q"%char.
Proof.
  assert (∀ c cs oi oa,
            take_option argv (skip_ordering optstring) c cs oi oa = (r, d') →
            r ≠ "q"%char) as Htake.
  { intros c cs oi oa [->|[<- Hlook]]%take_option_known; [done|].
    intros ->. by apply Hlook. }
  unfold getopt. destruct (nextchar d) as [|c cs].
  - destruct (argv !! optind d) as [x|]; [|discriminate].
    destruct (decide (x = "--")); [discriminate|].
    destruct x as [|[[] [] [] [] [] [] [] []] [|c cs]]; try discriminate.
    destruct (take_option _ _ _ _ _ _) as [r' d1] eqn:Ht.
    intros [= -> ->]. by eapply Htake.
  - destruct (take_option _ _ _ _ _ _) as [r' d1] eqn:Ht.
    intros [= -> ->]. by eapply Htake.
Qed.

Lemma option_switch_verbosity (c : ascii) (oa : string)
    (st st' : bb_status_struct) (cfg cfg' : bb_config_struct) :
  c ≠ "q"%char →
  option_switch c oa st cfg = inl (st', cfg') →
  verbosity st ≠ VERB_NONE → verbosity st' ≠ VERB_NONE.
Proof.
  intros Hq. unfold option_switch.
  destruct c as [[] [] [] [] [] [] [] []]; try discriminate;
    try (intros [= <- _]; by cbn); try done.
  destruct (verbosity st); intros [= <- _]; by cbn.
Qed.

Lemma parse_loop_never_quiet (argv : list string) :
  ∀ (fuel : nat) (st : bb_status_struct) (cfg : bb_config_struct)
    (d : getopt_data) st' cfg' d',
    parse_loop fuel argv st cfg d = Parsed st' cfg' d' →
    verbosity st ≠ VERB_NONE → verbosity st' ≠ VERB_NONE.
Proof.
  induction fuel as [|fuel IH]; intros st cfg d st' cfg' d'; cbn [parse_loop];
    [discriminate|].
  destruct (getopt argv optstring d) as [[c|] d1] eqn:Hget.
  - destruct (option_switch c (optarg d1) st cfg) as [[st1 cfg1]|v] eqn:Hsw;
      [|discriminate].
    intros Hloop Hst. apply (IH _ _ _ _ _ _ Hloop).
    apply getopt_never_q in Hget.
    by eapply option_switch_verbosity.
  - by intros [= <- _ _].
Qed.

(** X19. Whatever the command line, option parsing never leaves the
    verbosity at VERB_NONE: the [case 'q'] of the switch cannot be reached. *)
Lemma quiet_is_unreachable (w : world) (argv : list string) st cfg d :
  parse_options w argv = Parsed st cfg d → verbosity st ≠ VERB_NONE.
Proof. intros H. by apply parse_loop_never_quiet in H. Qed.

(** After the separator everything is the command. *)
Lemma separator_ends_options (w : world) (prog : string)
    (command : list string) :
  parse_options w (prog :: "--" :: command)
  = Parsed (init_status (prog :: "--" :: command)) (w_config w)
      {| optind := 2; nextchar := ""; optarg := "" |}
  ∧ drop 2 (prog :: "--" :: command) = command.
Proof. split; reflexivity. Qed.

(** ** The three branches of the verdict switch *)

Lemma verdict_switch_other (w : world) (argv : list string) (oi : nat)
    (cfg : bb_config_struct) (first : ascii) (buffer : memory)
    (st : bb_status_struct) :
  first ≠ "N"%char → first ≠ "Y"%char →
  verdict_switch w argv oi cfg first buffer st
  = ([Ev_bb_log LOG_ERR "Problem: %*s\n" [cstring buffer]; Ev_socketClose],
     Go (set_socket (-1) st)).
Proof.
  intros HN HY. unfold verdict_switch.
  destruct first as [[] [] [] [] [] [] [] []]; try reflexivity;
    by (exfalso; (apply HN || apply HY)).
Qed.

Lemma verdict_switch_Y (w : world) (argv : list string) (oi : nat)
    (cfg : bb_config_struct) (buffer : memory) (st : bb_status_struct) :
  (oi ≤ length argv)%nat →
  verdict_switch w argv oi cfg "Y" buffer st
  = (Ev_bb_log LOG_INFO "Running application through vglrun.\n" []
       :: (if decide (strncmp (vgl_compress cfg) "proxy" BUFFER_SIZE ≠ 0%Z)
           then [Ev_bb_run_fork ["vglclient"; "-detach"]] else [])
       ++ [Ev_bb_run_fork_wait (vglrun_argv cfg (drop oi argv));
           Ev_socketClose],
     Go (set_socket (-1) st)).
Proof.
  intros Hoi. unfold verdict_switch.
  rewrite (build_vglrun_args_spec _ _ _ Hoi).
  cbn [mbind option_bind]. rewrite argv_of_terminated.
  reflexivity.
Qed.

Lemma verdict_switch_N (w : world) (argv : list string) (oi : nat)
    (cfg : bb_config_struct) (buffer : memory) (st : bb_status_struct) :
  verdict_switch w argv oi cfg "N" buffer st
  = ([Ev_socketClose;
      Ev_bb_log LOG_WARNING "Running application normally.\n" [];
      Ev_bb_run_exec (drop oi argv)],
     End (if w_exec_fails w then ExecFailed else Replaced (drop oi argv))).
Proof. reflexivity. Qed.

(** Whenever the switch hands control back to the loop, the socket has been
    closed. *)
Lemma verdict_switch_closes (w : world) (argv : list string) (oi : nat)
    (cfg : bb_config_struct) (first : ascii) (buffer : memory)
    (st st2 : bb_status_struct) (ev : list event) :
  verdict_switch w argv oi cfg first buffer st = (ev, Go st2) →
  bb_socket st2 = (-1)%Z.
Proof.
  unfold verdict_switch.
  destruct first as [[] [] [] [] [] [] [] []];
    try (intros [= _ <-]; reflexivity); try discriminate.
  destruct (build_vglrun_args argv oi cfg ≫= argv_of);
    [intros [= _ <-]; reflexivity | discriminate].
Qed.

(** ** The application loop *)

Section AppLoop.

Variables (w : world) (argv : list string) (oi : nat) (cfg : bb_config_struct).

Lemma app_loop_closed (reads : list read_outcome) (buffer : memory)
    (st : bb_status_struct) :
  bb_socket st = (-1)%Z →
  app_loop w argv oi cfg reads buffer st = ([], Go (st, reads, buffer)).
Proof. intros Hs. destruct reads; simpl; by rewrite decide_True. Qed.

Lemma app_loop_nothing (reads : list read_outcome) (buffer : memory)
    (st : bb_status_struct) :
  bb_socket st ≠ (-1)%Z →
  app_loop w argv oi cfg (rd_nothing :: reads) buffer st
  = (Ev_socketRead :: (app_loop w argv oi cfg reads buffer st).1,
     (app_loop w argv oi cfg reads buffer st).2).
Proof.
  intros Hs. cbn [app_loop]. rewrite decide_False by done.
  cbn [socketRead]. rewrite decide_False by lia.
  by destruct (app_loop w argv oi cfg reads buffer st).
Qed.

Lemma app_loop_data (c : ascii) (rest : string) (reads : list read_outcome)
    (buffer : memory) (st : bb_status_struct) :
  bb_socket st ≠ (-1)%Z →
  app_loop w argv oi cfg (rd_data c rest :: reads) buffer st
  = let buffer1 := poke buffer (list_ascii_of_string (String c rest)) in
    let ev_read :=
      [Ev_socketRead;
       Ev_bb_log LOG_INFO "Response: %*s\n" [cstring buffer1]] in
    match verdict_switch w argv oi cfg c buffer1 st with
    | (ev, Go st2) => (ev_read ++ ev, Go (st2, reads, buffer1))
    | (ev, End o) => (ev_read ++ ev, End o)
    end.
Proof.
  intros Hs. cbn [app_loop]. rewrite decide_False by done.
  cbn [socketRead]. rewrite decide_True by lia.
  change (first_byte (poke buffer (list_ascii_of_string (String c rest))))
    with c.
  cbn zeta.
  destruct (verdict_switch w argv oi cfg c _ st) as [ev [st2|o]] eqn:Hsw;
    [|done].
  apply verdict_switch_closes in Hsw.
  rewrite app_loop_closed by done. cbn. by rewrite app_nil_r.
Qed.

(** The loop skips the reads that bring nothing and stops at the first reply
    that carries bytes: whatever the world would answer afterwards is not
    read. *)
Lemma app_loop_first_reply (k : nat) (c : ascii) (rest : string)
    (more : list read_outcome) (buffer : memory) (st : bb_status_struct) :
  bb_socket st ≠ (-1)%Z →
  app_loop w argv oi cfg (replicate k rd_nothing ++ rd_data c rest :: more)
    buffer st
  = let buffer1 := poke buffer (list_ascii_of_string (String c rest)) in
    let ev_read :=
      replicate (S k) Ev_socketRead
        ++ [Ev_bb_log LOG_INFO "Response: %*s\n" [cstring buffer1]] in
    match verdict_switch w argv oi cfg c buffer1 st with
    | (ev, Go st2) => (ev_read ++ ev, Go (st2, more, buffer1))
    | (ev, End o) => (ev_read ++ ev, End o)
    end.
Proof.
  intros Hs. induction k as [|k IH].
  - cbn [replicate app]. by rewrite app_loop_data.
  - cbn [replicate app]. rewrite app_loop_nothing by done.
    rewrite IH. cbn zeta.
    by destruct (verdict_switch w argv oi cfg c _ st) as [ev [st2|o]].
Qed.

End AppLoop.

(** ** The status loop *)

Lemma status_loop_runmode :
  ∀ (reads : list read_outcome) (buffer : memory) (st st' : bb_status_struct)
    ev reads' buffer',
    status_loop reads buffer st = (ev, Go (st', reads', buffer')) →
    runmode st' = runmode st.
Proof.
  induction reads as [|o reads IH]; intros buffer st st' ev reads' buffer';
    cbn [status_loop].
  - destruct (decide _); [by intros [= _ <- _ _] | discriminate].
  - destruct (decide _); [by intros [= _ <- _ _]|].
    destruct o; cbn [socketRead socketClose].
    + rewrite decide_True by lia.
      destruct (status_loop reads _ _) as [evs res] eqn:Hl.
      intros [= _ ->]. by apply IH in Hl.
    + rewrite decide_False by lia.
      destruct (status_loop reads _ _) as [evs res] eqn:Hl.
      intros [= _ ->]. by apply IH in Hl.
    + rewrite decide_False by lia.
      destruct (status_loop reads _ _) as [evs res] eqn:Hl.
      intros [= _ ->]. by apply IH in Hl.
Qed.

(** ** main, once the options are parsed *)

Section Run.

Variables (w : world) (argv : list string).
Variables (st : bb_status_struct) (cfg : bb_config_struct) (d : getopt_data).
Hypothesis parsed : parse_options w argv = Parsed st cfg d.

(** The connection failed. *)
Lemma main_not_connected :
  w_init_log w = 0%Z → (w_connect w < 0)%Z →
  main w argv
  = (startup (resolve_runmode (length argv) d st) cfg
       ++ [Ev_bb_log LOG_ERR
             "Could not connect to bumblebee daemon - is it running?\n" [];
           Ev_bb_closelog],
     End (Exited EXIT_FAILURE)).
Proof.
  intros Hlog Hconn. unfold main, parse_step. rewrite parsed.
  cbn [mbind proc_bind emit app].
  rewrite decide_False by (intros Hne; exact (Hne Hlog)).
  cbn [mbind proc_bind emit app].
  rewrite decide_True by done.
  reflexivity.
Qed.

(** An application was given: the run is the application protocol. *)
Lemma main_app :
  (optind d < length argv)%nat → w_init_log w = 0%Z → (0 ≤ w_connect w)%Z →
  main w argv
  = let text := snprintf_s "" BUFFER_SIZE app_request in
    let buffer := snprintf_mem (w_memory w) BUFFER_SIZE app_request in
    let st1 := set_socket (w_connect w) st in
    let st2 := if w_write_fails w then set_socket (-1) st1 else st1 in
    let ev_start := startup st cfg ++ [Ev_socketWrite text 24] in
    match app_loop w argv (optind d) cfg (w_reads w) buffer st2 with
    | (ev, Go _) =>
        (ev_start ++ ev ++ [Ev_bb_closelog; Ev_bb_stop_all], Go EXIT_SUCCESS)
    | (ev, End o) => (ev_start ++ ev, End o)
    end.
Proof.
  intros Hoi Hlog Hconn. unfold main, parse_step. rewrite parsed.
  pose proof (parse_options_runmode _ _ _ _ _ parsed) as Hmode.
  cbn [mbind proc_bind emit app].
  unfold resolve_runmode.
  rewrite (decide_False (P := _ ∧ _)) by (intros [_ ?]; lia).
  rewrite decide_False by (intros Hne; exact (Hne Hlog)).
  cbn [mbind proc_bind emit app].
  rewrite decide_False by (cbn; lia).
  rewrite decide_False by (cbn; by rewrite Hmode).
  cbn [mret proc_ret mbind proc_bind app].
  rewrite decide_True by (cbn; by rewrite Hmode).
  cbn [socketWrite mbind proc_bind emit app snprintf_ret app_request].
  by destruct (app_loop _ _ _ _ _ _ _) as [ev [[[st3 reads] buffer]|o]].
Qed.

(** No application was given: the run is the status protocol. *)
Lemma main_status :
  (length argv ≤ optind d)%nat → w_init_log w = 0%Z → (0 ≤ w_connect w)%Z →
  main w argv
  = let text := snprintf_s "" BUFFER_SIZE status_request in
    let buffer := snprintf_mem (w_memory w) BUFFER_SIZE status_request in
    let st0 := set_runmode BB_RUN_STATUS st in
    let st1 := set_socket (w_connect w) st0 in
    let st2 := if w_write_fails w then set_socket (-1) st1 else st1 in
    let ev_start := startup st0 cfg ++ [Ev_socketWrite text 7] in
    match status_loop (w_reads w) buffer st2 with
    | (ev, Go _) =>
        (ev_start ++ ev ++ [Ev_bb_closelog; Ev_bb_stop_all], Go EXIT_SUCCESS)
    | (ev, End o) => (ev_start ++ ev, End o)
    end.
Proof.
  intros Hoi Hlog Hconn. unfold main, parse_step. rewrite parsed.
  pose proof (parse_options_runmode _ _ _ _ _ parsed) as Hmode.
  cbn [mbind proc_bind emit app].
  unfold resolve_runmode. rewrite (decide_True (P := _ ∧ _)) by done.
  rewrite decide_False by (intros Hne; exact (Hne Hlog)).
  cbn [mbind proc_bind emit app].
  rewrite decide_False by (cbn; lia).
  rewrite decide_True by done.
  cbn [socketWrite mbind proc_bind emit app snprintf_ret status_request].
  destruct (status_loop _ _ _) as [ev [[[st3 reads] buffer]|o]] eqn:Hloop;
    [|done].
  apply status_loop_runmode in Hloop.
  cbn [mbind proc_bind app].
  rewrite decide_False
    by (rewrite Hloop; by destruct (w_write_fails w)).
  done.
Qed.

End Run.

(** ** Runs of the application protocol *)

Lemma run_verdict (w : world) (argv : list string) st cfg d k c rest more :
  application_mode w argv st cfg d →
  first_reply w k c rest more →
  run w argv
  = let buffer :=
      poke (snprintf_mem (w_memory w) BUFFER_SIZE app_request)
        (list_ascii_of_string (String c rest)) in
    let text := reply_text w app_request c rest in
    match verdict_switch w argv (optind d) cfg c buffer
            (set_socket (w_connect w) st) with
    | (ev, Go _) =>
        (until_verdict st cfg k text ++ ev
           ++ [Ev_bb_closelog; Ev_bb_stop_all], Exited EXIT_SUCCESS)
    | (ev, End o) => (until_verdict st cfg k text ++ ev, o)
    end.
Proof.
  intros (Hparse & Hoi & Hlog & Hconn & Hwr) Hreads.
  unfold run. rewrite (main_app _ _ _ _ _ Hparse Hoi Hlog Hconn).
  cbn zeta. rewrite Hwr, Hreads.
  rewrite app_loop_first_reply by (cbn; lia).
  cbn zeta. unfold until_verdict, reply_text.
  destruct (verdict_switch _ _ _ _ _ _ _) as [ev [st2|o]];
    by rewrite <- ?app_assoc.
Qed.

Lemma spawns_app (l1 l2 : list event) :
  spawns (l1 ++ l2) = spawns l1 ++ spawns l2.
Proof. apply List.filter_app. Qed.

Lemma spawns_reads (n : nat) : spawns (replicate n Ev_socketRead) = [].
Proof. induction n as [|n IH]; [done|]. exact IH. Qed.

Lemma spawns_until_verdict st cfg k buffer :
  spawns (until_verdict st cfg k buffer) = [].
Proof.
  unfold until_verdict. rewrite !spawns_app, spawns_reads. reflexivity.
Qed.

Lemma spawns_elem (e : event) (tr : list event) :
  is_spawn e = true → e ∈ tr ↔ e ∈ spawns tr.
Proof.
  intros He. unfold spawns. rewrite !list_elem_of_In, List.filter_In. tauto.
Qed.

(** ** strncmp decides equality of C strings that fit the bound *)

Lemma code_inj (x y : ascii) : code x = code y → x = y.
Proof.
  unfold code. intros H%Nat2Z.inj.
  by rewrite <- (ascii_nat_embedding x), <- (ascii_nat_embedding y), H.
Qed.

Lemma code_zero (x : ascii) : code x = 0%Z → x = "000"%char.
Proof. intros H. by apply code_inj. Qed.

Lemma strncmp_refl (a : string) (n : nat) : strncmp a a n = 0%Z.
Proof.
  revert a. induction n as [|n IH]; intros [|x a]; cbn; try done.
  by rewrite Ascii.eqb_refl.
Qed.

Lemma strncmp_zero :
  ∀ (n : nat) (a b : string),
    nul_free a = true → nul_free b = true →
    (String.length b < n)%nat →
    strncmp a b n = 0%Z → a = b.
Proof.
  induction n as [|n IH]; intros a b Ha Hb Hn; [lia|].
  destruct a as [|x a], b as [|y b]; cbn in *; try done.
  - intros Hy. assert (y = "000"%char) as -> by (apply code_zero; lia).
    done.
  - intros ->%code_zero. done.
  - apply andb_prop in Ha as [_ Ha]. apply andb_prop in Hb as [_ Hb].
    destruct (Ascii.eqb_spec x y) as [->|Hxy].
    + intros H. f_equal. apply IH; [done..|lia|done].
    + intros H. destruct Hxy. apply code_inj. lia.
Qed.

Lemma strncmp_proxy (a : string) :
  nul_free a = true → (6 ≤ BUFFER_SIZE)%nat →
  strncmp a "proxy" BUFFER_SIZE = 0%Z ↔ a = "proxy".
Proof.
  intros Ha Hn. split.
  - apply strncmp_zero; [done|done|cbn; lia].
  - intros ->. apply strncmp_refl.
Qed.

(** ** The verdicts *)

(** C1. For a Redirect verdict (a first reply that starts with Y), the one
    wrapper argument vector the run hands to [bb_run_fork_wait] is exactly
    vglrun, -c, the compression method, -d, the display, -ld, the driver
    path and the separator, followed by the trailing arguments of the
    command line, unchanged and in order. *)
Theorem redirect_wrapper_argv (w : world) (argv : list string)
    (st : bb_status_struct) (cfg : bb_config_struct) (d : getopt_data)
    (k : nat) (rest : string) (more : list read_outcome) :
  application_mode w argv st cfg d →
  first_reply w k "Y" rest more →
  ∀ a : list string,
    Ev_bb_run_fork_wait a ∈ (run w argv).1
    ↔ a = ["vglrun"; "-c"; vgl_compress cfg; "-d"; x_display cfg;
           "-ld"; ld_path cfg; "--"] ++ drop (optind d) argv.
Proof.
  intros Hmode Hreply a.
  rewrite (run_verdict _ _ _ _ _ _ _ _ _ Hmode Hreply). cbn zeta.
  destruct Hmode as (_ & Hoi & _).
  rewrite verdict_switch_Y by lia. cbn [fst].
  rewrite spawns_elem by done.
  rewrite !spawns_app, spawns_until_verdict.
  unfold vglrun_argv.
  destruct (decide _); cbn; rewrite ?elem_of_cons, elem_of_nil.
  - split; [intros [H|[H|[]]]; [discriminate|congruence]|].
    intros ->. right. by left.
  - split; [intros [H|[]]; congruence|].
    intros ->. by left.
Qed.

(** C2. For an Allow verdict (a first reply that starts with N), the only
    process operation of the run is the replacement of the process image by
    the trailing arguments of the command line: the vector has their length
    and holds them in their order, element for element. *)
Theorem allow_direct_argv (w : world) (argv : list string)
    (st : bb_status_struct) (cfg : bb_config_struct) (d : getopt_data)
    (k : nat) (rest : string) (more : list read_outcome) :
  application_mode w argv st cfg d →
  first_reply w k "N" rest more →
  ∃ args : list string,
    spawns (run w argv).1 = [Ev_bb_run_exec args]
    ∧ (w_exec_fails w = false → (run w argv).2 = Replaced args)
    ∧ length args = (length argv - optind d)%nat
    ∧ (∀ i : nat, args !! i = argv !! (optind d + i)%nat)
    ∧ args = drop (optind d) argv.
Proof.
  intros Hmode Hreply. exists (drop (optind d) argv).
  rewrite (run_verdict _ _ _ _ _ _ _ _ _ Hmode Hreply). cbn zeta.
  rewrite verdict_switch_N. cbn [fst snd].
  rewrite !spawns_app, spawns_until_verdict.
  repeat split.
  - by intros ->.
  - apply length_drop.
  - intros i. apply lookup_drop.
Qed.

(** C3. For a Redirect verdict, the detached companion vglclient -detach is
    spawned if and only if the compression method is not proxy; when it is
    spawned it is spawned once, directly before the wrapper, and with the
    method proxy the wrapper is the only process of the run. *)
Theorem companion_unless_proxy (w : world) (argv : list string)
    (st : bb_status_struct) (cfg : bb_config_struct) (d : getopt_data)
    (k : nat) (rest : string) (more : list read_outcome) :
  application_mode w argv st cfg d →
  first_reply w k "Y" rest more →
  nul_free (vgl_compress cfg) = true →
  (6 ≤ BUFFER_SIZE)%nat →
  let companion := Ev_bb_run_fork ["vglclient"; "-detach"] in
  let wrapper :=
    Ev_bb_run_fork_wait
      (["vglrun"; "-c"; vgl_compress cfg; "-d"; x_display cfg;
        "-ld"; ld_path cfg; "--"] ++ drop (optind d) argv) in
  (companion ∈ (run w argv).1 ↔ vgl_compress cfg ≠ "proxy")
  ∧ (vgl_compress cfg ≠ "proxy" → spawns (run w argv).1 = [companion; wrapper])
  ∧ (vgl_compress cfg = "proxy" → spawns (run w argv).1 = [wrapper]).
Proof.
  intros Hmode Hreply Hnul Hsize companion wrapper.
  assert (spawns (run w argv).1
          = if decide (vgl_compress cfg = "proxy") then [wrapper]
            else [companion; wrapper]) as Hspawns.
  { rewrite (run_verdict _ _ _ _ _ _ _ _ _ Hmode Hreply). cbn zeta.
    destruct Hmode as (_ & Hoi & _).
    rewrite verdict_switch_Y by lia. cbn [fst].
    rewrite !spawns_app, spawns_until_verdict.
    pose proof (strncmp_proxy _ Hnul Hsize) as Hcmp.
    destruct (decide (strncmp _ _ _ ≠ _)) as [Hne|Heq];
      destruct (decide (vgl_compress cfg = _)) as [Hp|Hp]; try done.
    - by apply Hcmp in Hp.
    - destruct Hp. apply Hcmp.
      by destruct (decide (strncmp (vgl_compress cfg) "proxy" BUFFER_SIZE
                           = 0%Z)). }
  split; [|split].
  - rewrite spawns_elem, Hspawns by done.
    destruct (decide _) as [Hp|Hp].
    + rewrite list_elem_of_singleton. split; [discriminate|done].
    + split; [done|]. intros _. subst companion. by left.
  - intros Hp. by rewrite Hspawns, decide_False.
  - intros Hp. by rewrite Hspawns, decide_True.
Qed.

Lemma run_unknown_verdict (w : world) (argv : list string) st cfg d k c rest
    more :
  application_mode w argv st cfg d →
  first_reply w k c rest more →
  c ≠ "Y"%char → c ≠ "N"%char →
  run w argv
  = (until_verdict st cfg k (reply_text w app_request c rest)
       ++ [Ev_bb_log LOG_ERR "Problem: %*s\n"
             [reply_text w app_request c rest];
           Ev_socketClose]
       ++ [Ev_bb_closelog; Ev_bb_stop_all],
     Exited EXIT_SUCCESS).
Proof.
  intros Hmode Hreply HY HN.
  rewrite (run_verdict _ _ _ _ _ _ _ _ _ Hmode Hreply). cbn zeta.
  by rewrite verdict_switch_other.
Qed.

(** C4, as the code has it.  For a first reply whose first byte is neither Y
    nor N, the run performs no process operation at all: after the reply it
    logs an error, closes the connection, closes the log and ends by leaving
    [main], the requested command not executed.  What the error message
    carries is not the raw payload but the C string found in [buffer]: the
    payload, followed by what the buffer held after it (the rest of the
    request, for a short reply). *)
Theorem unknown_verdict_runs_nothing (w : world) (argv : list string)
    (st : bb_status_struct) (cfg : bb_config_struct) (d : getopt_data)
    (k : nat) (c : ascii) (rest : string) (more : list read_outcome) :
  application_mode w argv st cfg d →
  first_reply w k c rest more →
  c ≠ "Y"%char → c ≠ "N"%char →
  spawns (run w argv).1 = []
  ∧ (∃ before : list event,
       spawns before = []
       ∧ (run w argv).1
         = before
             ++ [Ev_bb_log LOG_ERR "Problem: %*s\n"
                   [reply_text w app_request c rest];
                 Ev_socketClose; Ev_bb_closelog; Ev_bb_stop_all])
  ∧ (∃ code : Z, (run w argv).2 = Exited code)
  ∧ (∀ a : list string, (run w argv).2 ≠ Replaced a).
Proof.
  intros Hmode Hreply HY HN.
  rewrite (run_unknown_verdict _ _ _ _ _ _ _ _ _ Hmode Hreply HY HN).
  cbn [fst snd]. repeat split.
  - by rewrite !spawns_app, spawns_until_verdict.
  - exists (until_verdict st cfg k (reply_text w app_request c rest)).
    split; [apply spawns_until_verdict | done].
  - by eexists.
  - discriminate.
Qed.

(** C10. After a first reply whose first byte is neither Y nor N the process
    leaves [main] with EXIT_SUCCESS, that is 0: the failure shows in the
    error the run logged, not in the exit status. *)
Theorem unknown_verdict_exits_zero (w : world) (argv : list string)
    (st : bb_status_struct) (cfg : bb_config_struct) (d : getopt_data)
    (k : nat) (c : ascii) (rest : string) (more : list read_outcome) :
  application_mode w argv st cfg d →
  first_reply w k c rest more →
  c ≠ "Y"%char → c ≠ "N"%char →
  (run w argv).2 = Exited 0
  ∧ ∃ text : string,
      Ev_bb_log LOG_ERR "Problem: %*s\n" [text] ∈ (run w argv).1.
Proof.
  intros Hmode Hreply HY HN.
  rewrite (run_unknown_verdict _ _ _ _ _ _ _ _ _ Hmode Hreply HY HN).
  cbn [fst snd]. split; [done|].
  exists (reply_text w app_request c rest).
  rewrite !elem_of_app. right. left. by left.
Qed.

(** ** Failure to connect *)

(** C7. When the connection to the daemon fails, the run is: the start-up
    with its single call of [socketConnect], the error message, the closing
    of the log, and the return of EXIT_FAILURE, which is not zero.  Nothing
    is written to the socket and nothing is read from it. *)
Theorem connection_failure_is_fatal (w : world) (argv : list string)
    (st : bb_status_struct) (cfg : bb_config_struct) (d : getopt_data) :
  parse_options w argv = Parsed st cfg d →
  w_init_log w = 0%Z →
  (w_connect w < 0)%Z →
  run w argv
  = ([Ev_signal SIGHUP; Ev_signal SIGTERM; Ev_signal SIGINT;
      Ev_signal SIGQUIT; Ev_read_configuration; Ev_bb_init_log;
      Ev_bb_log LOG_DEBUG "%s version %s starting...\n" [program_name st];
      Ev_socketConnect (socket_path cfg);
      Ev_bb_log LOG_ERR
        "Could not connect to bumblebee daemon - is it running?\n" [];
      Ev_bb_closelog],
     Exited EXIT_FAILURE)
  ∧ EXIT_FAILURE ≠ 0%Z
  ∧ requests (run w argv).1 = []
  ∧ reads_done (run w argv).1 = 0%nat.
Proof.
  intros Hparse Hlog Hconn. unfold run.
  rewrite (main_not_connected _ _ _ _ _ Hparse Hlog Hconn).
  unfold startup, resolve_runmode.
  destruct (decide _); done.
Qed.

(** ** Status mode *)

Lemma substring_all (s : string) (k : nat) :
  (String.length s ≤ k)%nat → substring 0 k s = s.
Proof.
  revert k. induction s as [|c s IH]; intros [|k] Hk; cbn in *;
    try done; try lia.
  f_equal. apply IH. lia.
Qed.

Lemma snprintf_fits (old s : string) (n : nat) :
  (String.length s < n)%nat → snprintf_s old n s = s.
Proof.
  intros Hn. destruct n as [|k]; [lia|]. cbn. apply substring_all. lia.
Qed.

Lemma requests_app (l1 l2 : list event) :
  requests (l1 ++ l2) = requests l1 ++ requests l2.
Proof. apply omap_app. Qed.

(** The status loop never writes to the socket. *)
Lemma status_loop_requests :
  ∀ (reads : list read_outcome) (buffer : memory) (st : bb_status_struct),
    requests (status_loop reads buffer st).1 = [].
Proof.
  induction reads as [|o reads IH]; intros buffer st; cbn [status_loop].
  - by destruct (decide _).
  - destruct (decide _); [done|].
    destruct o; cbn [socketRead socketClose].
    + rewrite decide_True by lia.
      match goal with |- context [status_loop reads ?b ?s] =>
        specialize (IH b s); by destruct (status_loop reads b s) end.
    + rewrite decide_False by lia.
      specialize (IH buffer st). by destruct (status_loop reads _ _).
    + rewrite decide_False by lia.
      specialize (IH buffer (set_socket (-1) st)).
      by destruct (status_loop reads _ _).
Qed.

Lemma main_log_failed (w : world) (argv : list string) st cfg d :
  parse_options w argv = Parsed st cfg d →
  w_init_log w ≠ 0%Z →
  main w argv
  = ([Ev_signal SIGHUP; Ev_signal SIGTERM; Ev_signal SIGINT;
      Ev_signal SIGQUIT; Ev_read_configuration; Ev_bb_init_log;
      Ev_fprintf_stderr "Unexpected error, could not initialize log.\n"],
     End (Exited 1)).
Proof.
  intros Hparse Hlog. unfold main, parse_step. rewrite Hparse.
  cbn [mbind proc_bind emit app].
  by rewrite decide_True.
Qed.

(** C6. When no command follows the options, the run mode becomes the status
    mode; whatever the world answers, every request the run writes to the
    socket is the literal Status? (so never the availability request), and
    once the log and the connection are open that request is written, once. *)
Theorem no_command_asks_status (w : world) (argv : list string)
    (st : bb_status_struct) (cfg : bb_config_struct) (d : getopt_data) :
  parse_options w argv = Parsed st cfg d →
  (length argv ≤ optind d)%nat →
  (8 ≤ BUFFER_SIZE)%nat →
  runmode (resolve_runmode (length argv) d st) = BB_RUN_STATUS
  ∧ (∀ req : string * Z,
       req ∈ requests (run w argv).1 →
       req = ("Status?", 7%Z) ∧ req.1 ≠ "Checking availability...")
  ∧ (w_init_log w = 0%Z → (0 ≤ w_connect w)%Z →
     requests (run w argv).1 = [("Status?", 7%Z)]).
Proof.
  intros Hparse Hoi Hsize.
  pose proof (parse_options_runmode _ _ _ _ _ Hparse) as Hmode.
  assert (w_init_log w = 0%Z → (0 ≤ w_connect w)%Z →
          requests (run w argv).1 = [("Status?", 7%Z)]) as Hreq.
  { intros Hlog Hconn. unfold run.
    rewrite (main_status _ _ _ _ _ Hparse Hoi Hlog Hconn). cbn zeta.
    rewrite snprintf_fits by (cbn; lia).
    match goal with |- context [status_loop ?r ?b ?s] =>
      pose proof (status_loop_requests r b s) as Hloop;
      destruct (status_loop r b s) as [ev [[[st3 reads] buffer]|o]]
    end; cbn [fst] in *; rewrite !requests_app, Hloop; done. }
  split; [|split; [|done]].
  - unfold resolve_runmode. by rewrite decide_True.
  - intros req.
    destruct (decide (w_init_log w = 0%Z)) as [Hlog|Hlog].
    + destruct (decide (w_connect w < 0)%Z) as [Hconn|Hconn].
      * unfold run.
        rewrite (main_not_connected _ _ _ _ _ Hparse Hlog Hconn).
        cbn. by intros ?%elem_of_nil.
      * rewrite Hreq by (done || lia).
        intros ->%list_elem_of_singleton. done.
    + unfold run. rewrite (main_log_failed _ _ _ _ _ Hparse Hlog).
      cbn. by intros ?%elem_of_nil.
Qed.

(** ** The quiet flag *)

(** C8, as the code has it: [q] is not in the option string, so [getopt]
    reports -q as unknown and [main] prints the usage and exits with
    EXIT_FAILURE; the [case 'q'] of the switch is never reached. *)
Theorem quiet_flag_is_rejected (w : world) (prog : string)
    (rest : list string) :
  parse_options w (prog :: "-q" :: rest) = Usage EXIT_FAILURE
  ∧ run w (prog :: "-q" :: rest)
    = ([Ev_signal SIGHUP; Ev_signal SIGTERM; Ev_signal SIGINT;
        Ev_signal SIGQUIT; Ev_read_configuration;
        Ev_print_usage EXIT_FAILURE],
       Exited EXIT_FAILURE).
Proof. split; reflexivity. Qed.

(** ** The wrapper array *)

(** C9. In the Redirect case the array is allocated with 8 + n + 1 cells, n
    the number of trailing arguments; the construction never stores outside
    of it; the first eight cells hold the fixed tokens, the next n the
    trailing arguments, and the last cell holds the null pointer. *)
Theorem wrapper_array_in_bounds (argv : list string) (oi : nat)
    (cfg : bb_config_struct) :
  (oi ≤ length argv)%nat →
  let n := length (drop oi argv) in
  length (malloc (9 + length argv - oi)) = (8 + n + 1)%nat
  ∧ ∃ a : list cell,
      build_vglrun_args argv oi cfg = Some a
      ∧ length a = (8 + n + 1)%nat
      ∧ take 8 a
        = [Ptr "vglrun"; Ptr "-c"; Ptr (vgl_compress cfg); Ptr "-d";
           Ptr (x_display cfg); Ptr "-ld"; Ptr (ld_path cfg); Ptr "--"]
      ∧ (∀ r : nat, (r < n)%nat →
           ∃ x, argv !! (oi + r)%nat = Some x ∧ a !! (8 + r)%nat = Some (Ptr x))
      ∧ a !! (8 + n)%nat = Some Null
      ∧ last a = Some Null.
Proof.
  intros Hoi n.
  assert (n = (length argv - oi)%nat) as Hn by apply length_drop.
  split.
  { unfold malloc. rewrite length_replicate. lia. }
  exists (map Ptr (vglrun_argv cfg (drop oi argv)) ++ [Null]).
  split; [by apply build_vglrun_args_spec|].
  unfold vglrun_argv. repeat split.
  - rewrite length_app, length_map, length_app. cbn. fold n. lia.
  - intros r Hr.
    destruct (lookup_lt_is_Some_2 argv (oi + r)) as [x Hx]; [lia|].
    exists x. split; [done|].
    change ((map Ptr (drop oi argv) ++ [Null]) !! r = Some (Ptr x)).
    rewrite lookup_app_l by (rewrite length_map; fold n; lia).
    by rewrite list_lookup_fmap, lookup_drop, Hx.
  - change ((map Ptr (drop oi argv) ++ [Null]) !! n = Some Null).
    rewrite lookup_app_r by (rewrite length_map; fold n; lia).
    rewrite length_map. fold n. by rewrite Nat.sub_diag.
  - apply last_snoc.
Qed.

(** ** The end of the application loop *)

Lemma reads_done_app (l1 l2 : list event) :
  reads_done (l1 ++ l2) = (reads_done l1 + reads_done l2)%nat.
Proof. unfold reads_done. by rewrite List.filter_app, length_app. Qed.

Lemma reads_done_replicate (n : nat) :
  reads_done (replicate n Ev_socketRead) = n.
Proof. induction n as [|n IH]; [done|]. cbn. by f_equal. Qed.

(** C5, as the code has it.  In the application loop the reads that bring
    nothing are skipped and the first reply that carries bytes ends the loop:
    nothing is read after it.  Every branch of the switch closes the
    connection exactly once before the loop condition is tested again: as
    its first action for N, before the message and the exec; right after the
    error message for an unknown verdict; and for Y only as its last action,
    after vglrun has been run and waited for. *)
Theorem first_reply_ends_loop (w : world) (argv : list string) (oi : nat)
    (cfg : bb_config_struct) (k : nat) (c : ascii) (rest : string)
    (more : list read_outcome) (buffer : memory) (st : bb_status_struct) :
  bb_socket st ≠ (-1)%Z →
  (oi ≤ length argv)%nat →
  let buffer1 := poke buffer (list_ascii_of_string (String c rest)) in
  let branch := (verdict_switch w argv oi cfg c buffer1 st).1 in
  let result :=
    app_loop w argv oi cfg (replicate k rd_nothing ++ rd_data c rest :: more)
      buffer st in
  result.1
  = replicate (S k) Ev_socketRead
      ++ [Ev_bb_log LOG_INFO "Response: %*s\n" [cstring buffer1]] ++ branch
  ∧ reads_done result.1 = S k
  ∧ (∀ st' reads' buffer', result.2 = Go (st', reads', buffer') →
       bb_socket st' = (-1)%Z ∧ reads' = more)
  ∧ closes_done branch = 1%nat
  ∧ (c = "N"%char →
       branch
       = [Ev_socketClose;
          Ev_bb_log LOG_WARNING "Running application normally.\n" [];
          Ev_bb_run_exec (drop oi argv)])
  ∧ (c ≠ "Y"%char → c ≠ "N"%char →
       branch
       = [Ev_bb_log LOG_ERR "Problem: %*s\n" [cstring buffer1];
          Ev_socketClose])
  ∧ (c = "Y"%char →
       ∃ before : list event,
         branch
         = before
             ++ [Ev_bb_run_fork_wait (vglrun_argv cfg (drop oi argv));
                 Ev_socketClose]).
Proof.
  intros Hs Hoi buffer1 branch result.
  assert (reads_done branch = 0%nat ∧ closes_done branch = 1%nat)
    as (Hreads & Hcloses).
  { subst branch.
    destruct (decide (c = "Y"%char)) as [->|HY].
    - rewrite verdict_switch_Y by done. cbn [fst].
      split; by destruct (decide _).
    - destruct (decide (c = "N"%char)) as [->|HN].
      + by rewrite verdict_switch_N.
      + by rewrite verdict_switch_other. }
  assert (result
          = match verdict_switch w argv oi cfg c buffer1 st with
            | (ev, Go st2) =>
                ((replicate (S k) Ev_socketRead
                    ++ [Ev_bb_log LOG_INFO "Response: %*s\n"
                          [cstring buffer1]]) ++ ev,
                 Go (st2, more, buffer1))
            | (ev, End o) =>
                ((replicate (S k) Ev_socketRead
                    ++ [Ev_bb_log LOG_INFO "Response: %*s\n"
                          [cstring buffer1]]) ++ ev,
                 End o)
            end) as Hresult
    by (subst result; by rewrite app_loop_first_reply).
  assert (result.1
          = replicate (S k) Ev_socketRead
              ++ [Ev_bb_log LOG_INFO "Response: %*s\n" [cstring buffer1]]
              ++ branch)
    as Htrace.
  { rewrite Hresult. subst branch.
    destruct (verdict_switch w argv oi cfg c buffer1 st) as [ev [st2|o]];
      cbn [fst]; by rewrite <- app_assoc. }
  split; [exact Htrace|].
  split; [|split; [|split; [done|split; [|split]]]].
  - rewrite Htrace, !reads_done_app, reads_done_replicate, Hreads. cbn. lia.
  - intros st' reads' buffer' Hgo. rewrite Hresult in Hgo.
    destruct (verdict_switch w argv oi cfg c buffer1 st) as [ev [st2|o]]
      eqn:Hsw; [|done].
    injection Hgo as <- <- _.
    split; [by eapply verdict_switch_closes | done].
  - intros ->. subst branch. by rewrite verdict_switch_N.
  - intros HY HN. subst branch. by rewrite verdict_switch_other.
  - intros ->. subst branch. rewrite verdict_switch_Y by done. cbn [fst].
    eexists (_ :: _). rewrite app_comm_cons. reflexivity.
Qed.

(** ** More on option parsing *)

(** Two runs of the option loop that both come to an end agree: the result
    does not depend on the fuel. *)
Lemma parse_loop_agree (argv : list string) :
  ∀ (f1 f2 : nat) (st : bb_status_struct) (cfg : bb_config_struct)
    (d : getopt_data),
    parse_loop f1 argv st cfg d ≠ NoFuel →
    parse_loop f2 argv st cfg d ≠ NoFuel →
    parse_loop f1 argv st cfg d = parse_loop f2 argv st cfg d.
Proof.
  induction f1 as [|f1 IH]; intros [|f2] st cfg d; cbn [parse_loop];
    try done.
  destruct (getopt argv optstring d) as [[c|] d1]; [|done].
  destruct (option_switch c (optarg d1) st cfg) as [[st1 cfg1]|v]; [|done].
  apply IH.
Qed.

Lemma parse_options_by_fuel (w : world) (argv : list string) (fuel : nat)
    (r : parse_result) :
  parse_loop fuel argv (init_status argv) (w_config w) getopt_start = r →
  r ≠ NoFuel →
  parse_options w argv = r.
Proof.
  intros <- Hr. unfold parse_options.
  apply parse_loop_agree; [apply parse_options_ends | done].
Qed.

Lemma parse_loop_usage (argv : list string) :
  ∀ (fuel : nat) (st : bb_status_struct) (cfg : bb_config_struct)
    (d : getopt_data) (v : Z),
    parse_loop fuel argv st cfg d = Usage v →
    v = EXIT_SUCCESS ∨ v = EXIT_FAILURE.
Proof.
  induction fuel as [|fuel IH]; intros st cfg d v; cbn [parse_loop];
    [discriminate|].
  destruct (getopt argv optstring d) as [[c|] d1]; [|discriminate].
  destruct (option_switch c (optarg d1) st cfg) as [[st1 cfg1]|v1] eqn:Hsw.
  - apply IH.
  - intros [= <-]. revert Hsw. unfold option_switch.
    destruct c as [[] [] [] [] [] [] [] []]; try discriminate;
      try (intros [= <-]; by right); try (intros [= <-]; by left).
    destruct (verbosity st); discriminate.
Qed.

(** X1. The option loop always comes to an end, whatever the command line:
    either the options are accepted, or the usage is printed and the process
    exits with EXIT_SUCCESS (help) or EXIT_FAILURE. *)
Theorem option_loop_result (w : world) (argv : list string) :
  (∃ st cfg d, parse_options w argv = Parsed st cfg d)
  ∨ parse_options w argv = Usage EXIT_SUCCESS
  ∨ parse_options w argv = Usage EXIT_FAILURE.
Proof.
  pose proof (parse_options_ends w argv) as Hend.
  destruct (parse_options w argv) as [st cfg d|v|] eqn:Hp; [|right|done].
  - left. by exists st, cfg, d.
  - apply parse_loop_usage in Hp as [-> | ->]; [by left | by right].
Qed.

(** X2. Whether the run is a status run or an application run depends only
    on whether something follows the options: option parsing itself never
    changes the run mode. *)
Theorem runmode_follows_command (w : world) (argv : list string)
    (st : bb_status_struct) (cfg : bb_config_struct) (d : getopt_data) :
  parse_options w argv = Parsed st cfg d →
  runmode (resolve_runmode (length argv) d st)
  = if decide (optind d < length argv)%nat then BB_RUN_APP else BB_RUN_STATUS.
Proof.
  intros Hparse. apply parse_options_runmode in Hparse.
  unfold resolve_runmode.
  destruct (decide (optind d < length argv)%nat) as [Hlt|Hge].
  - by rewrite decide_False by (intros [_ ?]; lia).
  - by rewrite decide_True by (split; [done|lia]).
Qed.

(** *** Repeated -v *)

Lemma getopt_verbose (argv : list string) (i : nat) (oa : string) :
  argv !! i = Some "-v" →
  getopt argv optstring {| optind := i; nextchar := ""; optarg := oa |}
  = (Some "v"%char, {| optind := S i; nextchar := ""; optarg := oa |}).
Proof. intros Hv. unfold getopt. cbn [nextchar optind]. by rewrite Hv. Qed.

Lemma getopt_stops (argv : list string) (i : nat) (oa : string) :
  ends_options (drop i argv) →
  getopt argv optstring {| optind := i; nextchar := ""; optarg := oa |}
  = (None, {| optind := i + separator_width (drop i argv); nextchar := "";
              optarg := oa |}).
Proof.
  intros Hend. unfold getopt. cbn [nextchar optind].
  destruct (argv !! i) as [x|] eqn:Hx.
  - rewrite (drop_S _ _ _ Hx) in Hend |- *. cbn [separator_width].
    destruct (decide (x = "--")) as [->|Hsep].
    + by rewrite Nat.add_1_r.
    + rewrite Nat.add_0_r.
      destruct (Hend x eq_refl) as [?|Hopt]; [done|].
      by destruct x as [|[[] [] [] [] [] [] [] []] [|c cs]].
  - rewrite (drop_ge argv i) by (by apply lookup_ge_None).
    cbn. by rewrite Nat.add_0_r.
Qed.

Lemma parse_loop_verbose (cfg : bb_config_struct) (rest : list string)
    (oa : string) :
  ends_options rest →
  ∀ (n fuel : nat) (pre : list string) (st : bb_status_struct),
    (n < fuel)%nat →
    parse_loop fuel (pre ++ replicate n "-v" ++ rest) st cfg
      {| optind := length pre; nextchar := ""; optarg := oa |}
    = Parsed (Nat.iter n more_verbose st) cfg
        {| optind := length pre + n + separator_width rest; nextchar := "";
           optarg := oa |}.
Proof.
  intros Hend. induction n as [|n IH]; intros fuel pre st Hfuel;
    (destruct fuel as [|fuel]; [lia|]); cbn [parse_loop replicate].
  - rewrite getopt_stops; rewrite drop_app_length; [|done].
    by rewrite Nat.add_0_r.
  - rewrite getopt_verbose
      by (rewrite lookup_app_r, Nat.sub_diag by done; done).
    cbn [optarg].
    assert (option_switch "v" oa st cfg = inl (more_verbose st, cfg)) as ->
      by (unfold option_switch, more_verbose; by destruct (verbosity st)).
    replace (pre ++ ("-v" :: replicate n "-v") ++ rest)
      with ((pre ++ ["-v"]) ++ replicate n "-v" ++ rest)
      by (by rewrite <- app_assoc).
    replace (S (length pre)) with (length (pre ++ ["-v"]))
      by (rewrite length_app; cbn; lia).
    rewrite IH by lia.
    rewrite Nat.iter_succ_r, length_app. cbn [length].
    do 2 f_equal. lia.
Qed.

Lemma more_verbose_level (st : bb_status_struct) (n : nat) :
  verbosity st = VERB_WARN →
  Nat.iter n more_verbose st = set_verbosity (verbose_level n) st
  ∨ (n = 0%nat ∧ Nat.iter n more_verbose st = st).
Proof.
  intros Hst. destruct n as [|n]; [by right|]. left.
  induction n as [|n IH].
  - cbn. unfold more_verbose. by rewrite Hst.
  - rewrite Nat.iter_succ, IH. unfold verbose_level.
    rewrite (Nat.odd_succ (S n)), <- Nat.negb_odd.
    unfold more_verbose. cbn [verbosity set_verbosity].
    by destruct (Nat.odd (S n)).
Qed.

(** X3. Each -v switches the verbosity: one gives VERB_INFO, two give
    VERB_DEBUG, and a third one gives VERB_INFO again; in general an odd
    number of -v leaves VERB_INFO and an even number (not zero) VERB_DEBUG.
    The options end at the separator, which is consumed, or at the first
    element that is not an option, or at the end of the command line. *)
Theorem verbose_flags_alternate (w : world) (prog : string) (n : nat)
    (rest : list string) :
  ends_options rest →
  let argv := prog :: replicate n "-v" ++ rest in
  parse_options w argv
  = Parsed (set_verbosity (verbose_level n) (init_status argv)) (w_config w)
      {| optind := 1 + n + separator_width rest; nextchar := "";
         optarg := "" |}.
Proof.
  intros Hend argv.
  apply (parse_options_by_fuel _ _ (S n)); [|done].
  pose proof (parse_loop_verbose (w_config w) rest "" Hend n (S n) [prog]
                (init_status argv)) as Hloop.
  cbn [length app] in Hloop. unfold getopt_start. subst argv.
  rewrite Hloop by lia.
  by destruct (more_verbose_level (init_status (prog :: replicate n "-v" ++ rest))
                 n eq_refl) as [-> | [-> ->]].
Qed.

(** *** optind stays within argv *)

Lemma take_option_optind (argv : list string) (opts : string) (c : ascii)
    (cs : string) (oi : nat) (oa : string) (r : ascii) (d' : getopt_data) :
  (1 ≤ oi < length argv)%nat →
  take_option argv opts c cs oi oa = (r, d') →
  optind_ok argv d'.
Proof.
  intros Hoi. unfold take_option, optind_ok.
  destruct (if decide (c = ":"%char ∨ c = ";"%char) then no_such_option
            else optlookup opts c);
    destruct (decide (cs = "")) as [->|Hcs];
    try destruct (argv !! S oi) as [a|] eqn:Ha;
    intros [= _ <-]; cbn [optind nextchar];
    try (apply lookup_lt_Some in Ha); (split; [lia|]); try done; lia.
Qed.

Lemma getopt_optind (argv : list string) (d d' : getopt_data)
    (r : option ascii) :
  optind_ok argv d →
  getopt argv optstring d = (r, d') →
  optind_ok argv d'.
Proof.
  intros [Hoi Hnext]. unfold getopt.
  destruct (nextchar d) as [|c cs] eqn:Hn.
  - destruct (argv !! optind d) as [x|] eqn:Hx.
    + apply lookup_lt_Some in Hx.
      destruct (decide (x = "--")).
      * intros [= _ <-]. split; cbn; [lia|done].
      * destruct x as [|[[] [] [] [] [] [] [] []] [|c cs]];
          try (intros [= _ <-]; split; [done|by rewrite Hn]).
        destruct (take_option _ _ _ _ _ _) as [r' d1] eqn:Ht.
        intros [= _ <-]. eapply take_option_optind; [|done]. lia.
    + intros [= _ <-]. split; [done|by rewrite Hn].
  - destruct (take_option _ _ _ _ _ _) as [r' d1] eqn:Ht.
    intros [= _ <-]. eapply take_option_optind; [|done].
    split; [lia|by apply Hnext].
Qed.

Lemma parse_loop_optind (argv : list string) :
  ∀ (fuel : nat) (st : bb_status_struct) (cfg : bb_config_struct)
    (d : getopt_data) st' cfg' d',
    optind_ok argv d →
    parse_loop fuel argv st cfg d = Parsed st' cfg' d' →
    optind_ok argv d'.
Proof.
  induction fuel as [|fuel IH]; intros st cfg d st' cfg' d' Hd;
    cbn [parse_loop]; [discriminate|].
  destruct (getopt argv optstring d) as [[c|] d1] eqn:Hget.
  - destruct (option_switch c (optarg d1) st cfg) as [[st1 cfg1]|v];
      [|discriminate].
    apply IH. by eapply getopt_optind.
  - intros [= _ _ <-]. by eapply getopt_optind.
Qed.

(** X4. After the options are accepted, [optind] lies between 1 and [argc]:
    the vector [argv + optind] that [main] hands on never starts before
    [argv[1]] nor beyond the terminating null pointer, and what it holds is
    the last [argc - optind] elements of the command line. *)
Theorem optind_within_argv (w : world) (argv : list string)
    (st : bb_status_struct) (cfg : bb_config_struct) (d : getopt_data) :
  argv ≠ [] →
  parse_options w argv = Parsed st cfg d →
  (1 ≤ optind d ≤ length argv)%nat
  ∧ nextchar d = ""
  ∧ take (optind d) argv ++ drop (optind d) argv = argv
  ∧ length (drop (optind d) argv) = (length argv - optind d)%nat.
Proof.
  intros Hne Hparse.
  assert (optind_ok argv getopt_start) as Hstart.
  { split; [|done]. destruct argv; [done|]. cbn. lia. }
  pose proof (parse_loop_optind _ _ _ _ _ _ _ _ Hstart Hparse) as [Hoi _].
  split; [done|]. split; [|split; [apply take_drop | apply length_drop]].
  clear Hoi Hstart. revert Hparse. unfold parse_options.
  generalize (parse_fuel argv) (init_status argv) (w_config w) getopt_start.
  induction n as [|n IH]; intros st0 cfg0 d0; cbn [parse_loop];
    [discriminate|].
  destruct (getopt argv optstring d0) as [[c|] d1] eqn:Hget.
  - destruct (option_switch c (optarg d1) st0 cfg0) as [[st1 cfg1]|v];
      [apply IH | discriminate].
  - intros [= _ _ <-]. revert Hget. unfold getopt.
    destruct (nextchar d0) as [|c cs] eqn:Hn.
    + destruct (argv !! optind d0) as [x|]; [|by intros [= <-]].
      destruct (decide (x = "--")); [by intros [= <-]|].
      destruct x as [|[[] [] [] [] [] [] [] []] [|c cs]];
        try (by intros [= <-]).
      by destruct (take_option _ _ _ _ _ _).
    + by destruct (take_option _ _ _ _ _ _).
Qed.

(** *** The configuration buffers *)

Lemma substring_length_le (s : string) (k : nat) :
  (String.length (substring 0 k s) ≤ k)%nat.
Proof.
  revert k. induction s as [|c s IH]; intros [|k]; cbn; try lia.
  specialize (IH k). lia.
Qed.

Lemma snprintf_s_fits (old s : string) :
  (String.length old < BUFFER_SIZE)%nat →
  (String.length (snprintf_s old BUFFER_SIZE s) < BUFFER_SIZE)%nat.
Proof.
  intros Hold. unfold snprintf_s. destruct BUFFER_SIZE as [|k]; [done|].
  pose proof (substring_length_le s k). lia.
Qed.

Lemma option_switch_fits (c : ascii) (oa : string)
    (st st' : bb_status_struct) (cfg cfg' : bb_config_struct) :
  config_fits cfg →
  option_switch c oa st cfg = inl (st', cfg') →
  config_fits cfg'.
Proof.
  intros (Hx & Hl & Hu & Hm). unfold option_switch, config_fits.
  destruct c as [[] [] [] [] [] [] [] []]; try discriminate;
    try (intros [= _ <-]; cbn; repeat split;
         done || by apply snprintf_s_fits).
  destruct (verbosity st); intros [= _ <-]; done.
Qed.

Lemma parse_loop_fits (argv : list string) :
  ∀ (fuel : nat) (st : bb_status_struct) (cfg : bb_config_struct)
    (d : getopt_data) st' cfg' d',
    config_fits cfg →
    parse_loop fuel argv st cfg d = Parsed st' cfg' d' →
    config_fits cfg'.
Proof.
  induction fuel as [|fuel IH]; intros st cfg d st' cfg' d' Hfits;
    cbn [parse_loop]; [discriminate|].
  destruct (getopt argv optstring d) as [[c|] d1].
  - destruct (option_switch c (optarg d1) st cfg) as [[st1 cfg1]|v] eqn:Hsw;
      [|discriminate].
    apply IH. by eapply option_switch_fits.
  - by intros [= _ <- _].
Qed.

(** X5. No option overflows a configuration buffer: if the strings
    [read_configuration] left in [bb_config] fit their buffers of
    [BUFFER_SIZE] bytes, so do the strings after option parsing, however
    long the arguments of -X, -l, -u and -m are. *)
Theorem options_fit_buffers (w : world) (argv : list string)
    (st : bb_status_struct) (cfg : bb_config_struct) (d : getopt_data) :
  config_fits (w_config w) →
  parse_options w argv = Parsed st cfg d →
  config_fits cfg.
Proof. intros Hfits Hparse. by eapply parse_loop_fits. Qed.

(** *** Options with an argument, unknown options, help *)

(** X6. The compression method can be given detached (-m jpeg) or attached
    (-mjpeg), with the same effect on the configuration: the method becomes
    the argument cut to what the buffer holds.  Detached, the next element is
    taken as the argument whatever it is; with no element left the usage is
    printed and the process fails. *)
Theorem method_option_forms (w : world) (prog x : string)
    (command : list string) :
  let cfg :=
    set_vgl_compress
      (snprintf_s (vgl_compress (w_config w)) BUFFER_SIZE x) (w_config w) in
  parse_options w (prog :: "-m" :: x :: "--" :: command)
  = Parsed (init_status (prog :: "-m" :: x :: "--" :: command)) cfg
      {| optind := 4; nextchar := ""; optarg := x |}
  ∧ (x ≠ "" →
     parse_options w (prog :: String "-" (String "m" x) :: "--" :: command)
     = Parsed
         (init_status (prog :: String "-" (String "m" x) :: "--" :: command))
         cfg {| optind := 3; nextchar := ""; optarg := x |})
  ∧ parse_options w [prog; "-m"] = Usage EXIT_FAILURE.
Proof.
  intros cfg. split; [|split].
  - by apply (parse_options_by_fuel _ _ 2).
  - intros Hx. apply (parse_options_by_fuel _ _ 2); [|done].
    destruct x as [|c cs]; [done|]. reflexivity.
  - by apply (parse_options_by_fuel _ _ 1).
Qed.

(** X7. An option element whose first letter the switch has no case for
    ends the run at once: the usage is printed and the process exits with
    EXIT_FAILURE, before the log or the connection is opened.  This holds
    for the letters that are not in the option string and also for c, V and
    the letters of the tail of the option string, which [getopt] accepts. *)
Theorem unhandled_option_fails (w : world) (prog : string) (c : ascii)
    (cs : string) (rest : list string) :
  handled_option c = false →
  String c cs ≠ "-" →
  run w (prog :: String "-" (String c cs) :: rest)
  = ([Ev_signal SIGHUP; Ev_signal SIGTERM; Ev_signal SIGINT;
      Ev_signal SIGQUIT; Ev_read_configuration;
      Ev_print_usage EXIT_FAILURE],
     Exited EXIT_FAILURE).
Proof.
  intros Hc Hsep.
  assert (parse_options w (prog :: String "-" (String c cs) :: rest)
          = Usage EXIT_FAILURE) as Hparse.
  { apply (parse_options_by_fuel _ _ 1); [|done].
    destruct c as [[] [] [] [] [] [] [] []]; try discriminate Hc;
      destruct cs; try done. }
  unfold run, main, parse_step. by rewrite Hparse.
Qed.

(** X8. -h as the first option prints the usage and exits with
    EXIT_SUCCESS, whatever follows it on the command line; nothing else is
    done. *)
Theorem help_exits_zero (w : world) (prog cs : string)
    (rest : list string) :
  run w (prog :: String "-" (String "h" cs) :: rest)
  = ([Ev_signal SIGHUP; Ev_signal SIGTERM; Ev_signal SIGINT;
      Ev_signal SIGQUIT; Ev_read_configuration;
      Ev_print_usage EXIT_SUCCESS],
     Exited EXIT_SUCCESS).
Proof.
  assert (parse_options w (prog :: String "-" (String "h" cs) :: rest)
          = Usage EXIT_SUCCESS) as Hparse.
  { apply (parse_options_by_fuel _ _ 1); [|done]. by destruct cs. }
  unfold run, main, parse_step. by rewrite Hparse.
Qed.

(** ** More on the two protocols *)

Lemma status_loop_closed (reads : list read_outcome) (buffer : memory)
    (st : bb_status_struct) :
  bb_socket st = (-1)%Z →
  status_loop reads buffer st = ([], Go (st, reads, buffer)).
Proof. intros Hs. destruct reads; cbn; by rewrite decide_True. Qed.

Lemma status_loop_nothing (reads : list read_outcome) (buffer : memory)
    (st : bb_status_struct) :
  bb_socket st ≠ (-1)%Z →
  status_loop (rd_nothing :: reads) buffer st
  = (Ev_socketRead :: (status_loop reads buffer st).1,
     (status_loop reads buffer st).2).
Proof.
  intros Hs. cbn [status_loop]. rewrite decide_False by done.
  cbn [socketRead]. rewrite decide_False by lia.
  by destruct (status_loop reads buffer st).
Qed.

Lemma status_loop_first_reply (k : nat) (c : ascii) (rest : string)
    (more : list read_outcome) (buffer : memory) (st : bb_status_struct) :
  bb_socket st ≠ (-1)%Z →
  status_loop (replicate k rd_nothing ++ rd_data c rest :: more) buffer st
  = let buffer1 := poke buffer (list_ascii_of_string (String c rest)) in
    (replicate (S k) Ev_socketRead
       ++ [Ev_printf "Bumblebee status: %*s\n" [cstring buffer1];
           Ev_socketClose],
     Go (set_socket (-1) st, more, buffer1)).
Proof.
  intros Hs. induction k as [|k IH]; cbn [replicate app].
  - cbn [status_loop]. rewrite decide_False by done.
    cbn [socketRead socketClose]. rewrite decide_True by lia.
    by rewrite status_loop_closed.
  - rewrite status_loop_nothing by done. by rewrite IH.
Qed.

Lemma app_loop_peer_closes (w : world) (argv : list string) (oi : nat)
    (cfg : bb_config_struct) (k : nat) (more : list read_outcome)
    (buffer : memory) (st : bb_status_struct) :
  bb_socket st ≠ (-1)%Z →
  app_loop w argv oi cfg (replicate k rd_nothing ++ rd_closed :: more)
    buffer st
  = (replicate (S k) Ev_socketRead, Go (set_socket (-1) st, more, buffer)).
Proof.
  intros Hs. induction k as [|k IH]; cbn [replicate app].
  - cbn [app_loop]. rewrite decide_False by done.
    cbn [socketRead]. rewrite decide_False by lia.
    by rewrite app_loop_closed.
  - rewrite app_loop_nothing by done. by rewrite IH.
Qed.

(** X9. A status run: the request is written, the reads that bring nothing
    are skipped, and at the first reply that carries bytes [buffer] is
    printed as the status: the reply, followed by what the buffer held after
    it (the rest of the request, for a short reply).  The client then closes
    the connection itself and leaves [main] with EXIT_SUCCESS; nothing is
    read after that reply and nothing is run. *)
Theorem status_run (w : world) (argv : list string)
    (st : bb_status_struct) (cfg : bb_config_struct) (d : getopt_data)
    (k : nat) (c : ascii) (rest : string) (more : list read_outcome) :
  status_mode w argv st cfg d →
  first_reply w k c rest more →
  run w argv
  = (startup (set_runmode BB_RUN_STATUS st) cfg
       ++ [Ev_socketWrite (snprintf_s "" BUFFER_SIZE "Status?") 7]
       ++ replicate (S k) Ev_socketRead
       ++ [Ev_printf "Bumblebee status: %*s\n"
             [reply_text w status_request c rest];
           Ev_socketClose; Ev_bb_closelog; Ev_bb_stop_all],
     Exited EXIT_SUCCESS).
Proof.
  intros (Hparse & Hoi & Hlog & Hconn & Hwr) Hreads. unfold run.
  rewrite (main_status _ _ _ _ _ Hparse Hoi Hlog Hconn). cbn zeta.
  rewrite Hwr, Hreads, status_loop_first_reply by (cbn; lia).
  cbn zeta. unfold reply_text. by rewrite <- !app_assoc.
Qed.

(** X10. When the connection is closed before any reply arrived (the daemon
    went away, or a terminating signal closed the socket), an application
    run just ends: the command is not run, nothing is logged as an error,
    and [main] returns EXIT_SUCCESS. *)
Theorem closed_before_reply (w : world) (argv : list string)
    (st : bb_status_struct) (cfg : bb_config_struct) (d : getopt_data)
    (k : nat) (more : list read_outcome) :
  application_mode w argv st cfg d →
  w_reads w = replicate k rd_nothing ++ rd_closed :: more →
  run w argv
  = (startup st cfg
       ++ [Ev_socketWrite (snprintf_s "" BUFFER_SIZE app_request) 24]
       ++ replicate (S k) Ev_socketRead
       ++ [Ev_bb_closelog; Ev_bb_stop_all],
     Exited EXIT_SUCCESS).
Proof.
  intros (Hparse & Hoi & Hlog & Hconn & Hwr) Hreads. unfold run.
  rewrite (main_app _ _ _ _ _ Hparse Hoi Hlog Hconn). cbn zeta.
  rewrite Hwr, Hreads, app_loop_peer_closes by (cbn; lia).
  by rewrite <- !app_assoc.
Qed.

(** X11. When the request cannot be written, the socket is closed by the
    write and neither loop reads anything: an application run ends with
    EXIT_SUCCESS without a single call of [socketRead] and without running
    the command. *)
Theorem write_failure_skips_loop (w : world) (argv : list string)
    (st : bb_status_struct) (cfg : bb_config_struct) (d : getopt_data) :
  parse_options w argv = Parsed st cfg d →
  (optind d < length argv)%nat →
  w_init_log w = 0%Z →
  (0 ≤ w_connect w)%Z →
  w_write_fails w = true →
  run w argv
  = (startup st cfg
       ++ [Ev_socketWrite (snprintf_s "" BUFFER_SIZE app_request) 24;
           Ev_bb_closelog; Ev_bb_stop_all],
     Exited EXIT_SUCCESS)
  ∧ reads_done (run w argv).1 = 0%nat
  ∧ spawns (run w argv).1 = [].
Proof.
  intros Hparse Hoi Hlog Hconn Hwr.
  assert (run w argv
          = (startup st cfg
               ++ [Ev_socketWrite (snprintf_s "" BUFFER_SIZE app_request) 24;
                   Ev_bb_closelog; Ev_bb_stop_all],
             Exited EXIT_SUCCESS)) as ->; [|done].
  unfold run. rewrite (main_app _ _ _ _ _ Hparse Hoi Hlog Hconn). cbn zeta.
  rewrite Hwr, app_loop_closed by done. by rewrite <- !app_assoc.
Qed.

(** X12. When the log cannot be initialised, [main] writes a message to the
    standard error and returns 1 before it tries to connect: no connection
    attempt, no request. *)
Theorem log_failure_is_fatal (w : world) (argv : list string)
    (st : bb_status_struct) (cfg : bb_config_struct) (d : getopt_data) :
  parse_options w argv = Parsed st cfg d →
  w_init_log w ≠ 0%Z →
  run w argv
  = ([Ev_signal SIGHUP; Ev_signal SIGTERM; Ev_signal SIGINT;
      Ev_signal SIGQUIT; Ev_read_configuration; Ev_bb_init_log;
      Ev_fprintf_stderr "Unexpected error, could not initialize log.\n"],
     Exited 1).
Proof.
  intros Hparse Hlog. unfold run.
  by rewrite (main_log_failed _ _ _ _ _ Hparse Hlog).
Qed.

(** ** Every run *)

Lemma verdict_switch_requests (w : world) (argv : list string) (oi : nat)
    (cfg : bb_config_struct) (first : ascii) (buffer : memory)
    (st : bb_status_struct) :
  requests (verdict_switch w argv oi cfg first buffer st).1 = [].
Proof.
  unfold verdict_switch.
  destruct first as [[] [] [] [] [] [] [] []]; try reflexivity.
  destruct (build_vglrun_args argv oi cfg ≫= argv_of);
    by destruct (decide _).
Qed.

(** The application loop never writes to the socket. *)
Lemma app_loop_requests (w : world) (argv : list string) (oi : nat)
    (cfg : bb_config_struct) :
  ∀ (reads : list read_outcome) (buffer : memory) (st : bb_status_struct),
    requests (app_loop w argv oi cfg reads buffer st).1 = [].
Proof.
  induction reads as [|o reads IH]; intros buffer st; cbn [app_loop].
  - by destruct (decide _).
  - destruct (decide _); [done|].
    destruct o as [c rest| |]; cbn [socketRead].
    + rewrite decide_True by lia.
      match goal with |- context [verdict_switch ?a ?b ?c ?e ?f ?g ?h] =>
        pose proof (verdict_switch_requests a b c e f g h) as Hsw;
        destruct (verdict_switch a b c e f g h) as [ev [st2|o]]
      end; [|done].
      match goal with |- context [app_loop w argv oi cfg reads ?b ?s] =>
        specialize (IH b s);
        destruct (app_loop w argv oi cfg reads b s) as [evs res]
      end.
      cbn [fst] in *. cbn. by rewrite requests_app, Hsw, IH.
    + rewrite decide_False by lia. specialize (IH buffer st).
      by destruct (app_loop w argv oi cfg reads buffer st).
    + rewrite decide_False by lia.
      specialize (IH buffer (set_socket (-1) st)).
      by destruct (app_loop w argv oi cfg reads buffer _).
Qed.

(** The switch ends the process only by the exec of the command. *)
Lemma verdict_switch_ends (w : world) (argv : list string) (oi : nat)
    (cfg : bb_config_struct) (first : ascii) (buffer : memory)
    (st : bb_status_struct) (ev : list event) (o : outcome) :
  (oi ≤ length argv)%nat →
  verdict_switch w argv oi cfg first buffer st = (ev, End o) →
  o = ExecFailed ∨ o = Replaced (drop oi argv).
Proof.
  intros Hoi.
  destruct (decide (first = "Y"%char)) as [->|HY].
  { by rewrite verdict_switch_Y. }
  destruct (decide (first = "N"%char)) as [->|HN].
  - rewrite verdict_switch_N. intros [= _ <-].
    destruct (w_exec_fails w); [by left | by right].
  - by rewrite verdict_switch_other.
Qed.

Lemma app_loop_ends (w : world) (argv : list string) (oi : nat)
    (cfg : bb_config_struct) :
  (oi ≤ length argv)%nat →
  ∀ (reads : list read_outcome) (buffer : memory) (st : bb_status_struct)
    (o : outcome),
    (app_loop w argv oi cfg reads buffer st).2 = End o →
    o = Diverges ∨ o = ExecFailed ∨ o = Replaced (drop oi argv).
Proof.
  intros Hoi. induction reads as [|x reads IH]; intros buffer st o;
    cbn [app_loop].
  - destruct (decide _); [done|]. intros [= <-]. by left.
  - destruct (decide _); [done|].
    destruct x; cbn [socketRead].
    + rewrite decide_True by lia.
      destruct (verdict_switch _ _ _ _ _ _ _) as [ev [st2|o']] eqn:Hsw.
      * match goal with |- context [app_loop w argv oi cfg reads ?b ?s] =>
          specialize (IH b s o);
          by destruct (app_loop w argv oi cfg reads b s)
        end.
      * intros [= <-]. right. by eapply verdict_switch_ends.
    + rewrite decide_False by lia. specialize (IH buffer st o).
      by destruct (app_loop w argv oi cfg reads buffer st).
    + rewrite decide_False by lia.
      specialize (IH buffer (set_socket (-1) st) o).
      by destruct (app_loop w argv oi cfg reads buffer _).
Qed.

Lemma status_loop_ends :
  ∀ (reads : list read_outcome) (buffer : memory) (st : bb_status_struct)
    (o : outcome),
    (status_loop reads buffer st).2 = End o → o = Diverges.
Proof.
  induction reads as [|x reads IH]; intros buffer st o; cbn [status_loop].
  - destruct (decide _); [done|]. by intros [= <-].
  - destruct (decide _); [done|].
    destruct x; cbn [socketRead socketClose].
    + rewrite decide_True by lia.
      match goal with |- context [status_loop reads ?b ?s] =>
        specialize (IH b s o); by destruct (status_loop reads b s) end.
    + rewrite decide_False by lia. specialize (IH buffer st o).
      by destruct (status_loop reads buffer st).
    + rewrite decide_False by lia.
      specialize (IH buffer (set_socket (-1) st) o).
      by destruct (status_loop reads buffer _).
Qed.

Lemma status_loop_spawns :
  ∀ (reads : list read_outcome) (buffer : memory) (st : bb_status_struct),
    spawns (status_loop reads buffer st).1 = [].
Proof.
  induction reads as [|x reads IH]; intros buffer st; cbn [status_loop].
  - by destruct (decide _).
  - destruct (decide _); [done|].
    destruct x; cbn [socketRead socketClose].
    + rewrite decide_True by lia.
      match goal with |- context [status_loop reads ?b ?s] =>
        specialize (IH b s); by destruct (status_loop reads b s) end.
    + rewrite decide_False by lia. specialize (IH buffer st).
      by destruct (status_loop reads buffer st).
    + rewrite decide_False by lia.
      specialize (IH buffer (set_socket (-1) st)).
      by destruct (status_loop reads buffer _).
Qed.

(** X13. However the world answers and whatever the command line, a run
    never stores outside the array it allocates for vglrun; when the process
    ends by itself its exit status is 0 or 1; and when it ends by becoming
    another program, that program was started with a non-empty vector
    [argv + k] with k at least 1. *)
Theorem run_outcomes (w : world) (argv : list string) :
  (run w argv).2 ≠ Undefined
  ∧ (∀ code : Z, (run w argv).2 = Exited code → code = 0%Z ∨ code = 1%Z)
  ∧ (∀ a : list string, (run w argv).2 = Replaced a →
       ∃ k : nat, (1 ≤ k < length argv)%nat ∧ a = drop k argv).
Proof.
  assert (∀ o, (run w argv).2 = o →
            o = Exited 0 ∨ o = Exited 1 ∨ o = Diverges ∨ o = ExecFailed
            ∨ ∃ k : nat, (1 ≤ k < length argv)%nat ∧ o = Replaced (drop k argv))
    as Hcases.
  { intros o <-. unfold run.
    destruct (parse_options w argv) as [st cfg d|v|] eqn:Hparse.
    - destruct (decide (w_init_log w = 0%Z)) as [Hlog|Hlog];
        [|rewrite (main_log_failed _ _ _ _ _ Hparse Hlog); by right; left].
      destruct (decide (w_connect w < 0)%Z) as [Hconn|Hconn];
        [rewrite (main_not_connected _ _ _ _ _ Hparse Hlog Hconn);
         by right; left|].
      destruct (decide (optind d < length argv)%nat) as [Hoi|Hoi].
      + rewrite (main_app _ _ _ _ _ Hparse Hoi Hlog) by lia. cbn zeta.
        match goal with |- context [app_loop ?a ?b ?c ?e ?r ?m ?s] =>
          pose proof (app_loop_ends a b c e ltac:(lia) r m s) as Hend;
          destruct (app_loop a b c e r m s) as [ev [x|o]]
        end; [by left|]. cbn [snd] in *.
        destruct (Hend o eq_refl) as [-> | [-> | ->]]; [by do 2 right; left
          |by do 3 right; left|].
        do 4 right. exists (optind d). split; [|done].
        assert (optind_ok argv getopt_start) as Hstart.
        { split; [|done]. destruct argv; cbn in *; lia. }
        pose proof (parse_loop_optind _ _ _ _ _ _ _ _ Hstart Hparse)
          as [? _]. lia.
      + rewrite (main_status _ _ _ _ _ Hparse) by (done || lia). cbn zeta.
        match goal with |- context [status_loop ?r ?m ?s] =>
          pose proof (status_loop_ends r m s) as Hend;
          destruct (status_loop r m s) as [ev [x|o]]
        end; [by left|]. cbn [snd] in *.
        rewrite (Hend o eq_refl). by do 2 right; left.
    - unfold main, parse_step. rewrite Hparse. cbn.
      apply parse_loop_usage in Hparse as [-> | ->];
        [by left | by right; left].
    - by destruct (parse_options_ends w argv). }
  split; [|split].
  - intros Hu. by destruct (Hcases _ Hu) as [?|[?|[?|[?|(k & _ & ?)]]]].
  - intros code Hc.
    destruct (Hcases _ Hc) as [?|[?|[?|[?|(k & _ & ?)]]]]; try done.
    + left. congruence.
    + right. congruence.
  - intros a Ha.
    destruct (Hcases _ Ha) as [?|[?|[?|[?|(k & Hk & Heq)]]]]; try done.
    exists k. split; [done|congruence].
Qed.

Lemma closes_done_app (l1 l2 : list event) :
  closes_done (l1 ++ l2) = (closes_done l1 + closes_done l2)%nat.
Proof. unfold closes_done. by rewrite List.filter_app, length_app. Qed.

Lemma closes_done_reads (n : nat) :
  closes_done (replicate n Ev_socketRead) = 0%nat.
Proof. induction n as [|n IH]; [done|]. exact IH. Qed.

(** X14. After a Redirect verdict the run ends in this order: vglrun is run
    and waited for, the connection is closed, the log is closed, the
    processes left are stopped; and [main] returns EXIT_SUCCESS, whatever
    became of vglrun. *)
Theorem redirect_cleanup (w : world) (argv : list string)
    (st : bb_status_struct) (cfg : bb_config_struct) (d : getopt_data)
    (k : nat) (rest : string) (more : list read_outcome) :
  application_mode w argv st cfg d →
  first_reply w k "Y" rest more →
  (∃ before : list event,
     (run w argv).1
     = before
         ++ [Ev_bb_run_fork_wait (vglrun_argv cfg (drop (optind d) argv));
             Ev_socketClose; Ev_bb_closelog; Ev_bb_stop_all])
  ∧ closes_done (run w argv).1 = 1%nat
  ∧ (run w argv).2 = Exited EXIT_SUCCESS.
Proof.
  intros Hmode Hreply.
  rewrite (run_verdict _ _ _ _ _ _ _ _ _ Hmode Hreply). cbn zeta.
  destruct Hmode as (_ & Hoi & _).
  rewrite verdict_switch_Y by lia. cbn [fst snd].
  split; [|split; [|done]].
  - exists (until_verdict st cfg k (reply_text w app_request "Y" rest)
            ++ Ev_bb_log LOG_INFO "Running application through vglrun.\n" []
                 :: (if decide (strncmp (vgl_compress cfg) "proxy" BUFFER_SIZE
                                ≠ 0%Z)
                     then [Ev_bb_run_fork ["vglclient"; "-detach"]] else [])).
    rewrite <- !app_assoc. cbn [app]. by destruct (decide _).
  - unfold until_verdict.
    rewrite !closes_done_app, closes_done_reads.
    by destruct (decide _).
Qed.

(** X15. After an Allow verdict the connection is closed before the command
    replaces the process: the run ends with the close, the message and the
    exec, and neither [bb_closelog] nor [bb_stop_all] is called. *)
Theorem allow_closes_before_exec (w : world) (argv : list string)
    (st : bb_status_struct) (cfg : bb_config_struct) (d : getopt_data)
    (k : nat) (rest : string) (more : list read_outcome) :
  application_mode w argv st cfg d →
  first_reply w k "N" rest more →
  (∃ before : list event,
     closes_done before = 0%nat
     ∧ spawns before = []
     ∧ (run w argv).1
       = before
           ++ [Ev_socketClose;
               Ev_bb_log LOG_WARNING "Running application normally.\n" [];
               Ev_bb_run_exec (drop (optind d) argv)])
  ∧ (Ev_bb_closelog ∉ (run w argv).1)
  ∧ (Ev_bb_stop_all ∉ (run w argv).1).
Proof.
  intros Hmode Hreply.
  rewrite (run_verdict _ _ _ _ _ _ _ _ _ Hmode Hreply). cbn zeta.
  rewrite verdict_switch_N. cbn [fst].
  split.
  { exists (until_verdict st cfg k (reply_text w app_request "N" rest)).
    split; [|split; [apply spawns_until_verdict | done]].
    unfold until_verdict.
    by rewrite !closes_done_app, closes_done_reads. }
  unfold until_verdict, startup.
  split; rewrite !elem_of_app, !elem_of_cons, !elem_of_nil;
    intros H;
    repeat match type of H with _ ∨ _ => destruct H as [H|H] end;
    try discriminate H; try done;
    by apply elem_of_replicate_inv in H.
Qed.

(** X16. An application run writes exactly one request to the socket, the
    availability request and its 24 bytes, whatever the daemon answers and
    however the run ends. *)
Theorem application_asks_once (w : world) (argv : list string)
    (st : bb_status_struct) (cfg : bb_config_struct) (d : getopt_data) :
  parse_options w argv = Parsed st cfg d →
  (optind d < length argv)%nat →
  w_init_log w = 0%Z →
  (0 ≤ w_connect w)%Z →
  (25 ≤ BUFFER_SIZE)%nat →
  requests (run w argv).1 = [("Checking availability...", 24%Z)].
Proof.
  intros Hparse Hoi Hlog Hconn Hsize. unfold run.
  rewrite (main_app _ _ _ _ _ Hparse Hoi Hlog Hconn). cbn zeta.
  rewrite snprintf_fits by (cbn; lia).
  match goal with |- context [app_loop ?a ?b ?c ?e ?r ?m ?s] =>
    pose proof (app_loop_requests a b c e r m s) as Hloop;
    destruct (app_loop a b c e r m s) as [ev [x|o]]
  end; cbn [fst] in *; rewrite !requests_app, Hloop; done.
Qed.

(** X17. A status run never starts a process, whatever the daemon answers
    and however the run ends. *)
Theorem status_never_spawns (w : world) (argv : list string)
    (st : bb_status_struct) (cfg : bb_config_struct) (d : getopt_data) :
  parse_options w argv = Parsed st cfg d →
  (length argv ≤ optind d)%nat →
  spawns (run w argv).1 = [].
Proof.
  intros Hparse Hoi. unfold run.
  destruct (decide (w_init_log w = 0%Z)) as [Hlog|Hlog];
    [|by rewrite (main_log_failed _ _ _ _ _ Hparse Hlog)].
  destruct (decide (w_connect w < 0)%Z) as [Hconn|Hconn];
    [by rewrite (main_not_connected _ _ _ _ _ Hparse Hlog Hconn)|].
  rewrite (main_status _ _ _ _ _ Hparse Hoi Hlog) by lia. cbn zeta.
  match goal with |- context [status_loop ?r ?m ?s] =>
    pose proof (status_loop_spawns r m s) as Hloop;
    destruct (status_loop r m s) as [ev [x|o]]
  end; cbn [fst] in *; rewrite !spawns_app, Hloop; done.
Qed.

(** ** Signals *)

(** X18. A terminating signal (interrupt, quit, terminate) makes the handler
    close the socket, after which both read loops end at once without a
    read; a hangup, like any other signal, is only logged and leaves the
    status as it is. *)
Theorem signal_ends_loops (w : world) (argv : list string) (oi : nat)
    (cfg : bb_config_struct) (sig : signal) (st : bb_status_struct)
    (reads : list read_outcome) (buffer : memory) :
  let st' := (handle_signal sig st).2 in
  match sig with
  | SIGINT | SIGQUIT | SIGTERM =>
      closes_done (handle_signal sig st).1 = 1%nat
      ∧ app_loop w argv oi cfg reads buffer st'
        = ([], Go (st', reads, buffer))
      ∧ status_loop reads buffer st' = ([], Go (st', reads, buffer))
  | SIGHUP | SIGOTHER =>
      closes_done (handle_signal sig st).1 = 0%nat ∧ st' = st
  end
  ∧ ∃ fmt, Ev_bb_log LOG_WARNING fmt [] ∈ (handle_signal sig st).1.
Proof.
  intros st'. subst st'. split.
  - destruct sig; cbn [handle_signal socketClose fst snd];
      try done; (split; [done|]);
      by rewrite app_loop_closed, status_loop_closed.
  - destruct sig; cbn; eexists; by left.
Qed.

(** ** What is printed of the buffer *)









End Optirun.

(** ** The concrete runs, checked *)

Lemma application_mode_jpeg (c : ascii) (rest : string) :
  application_mode 1024 (world_reply c rest) argv_jpeg sample_status
    config_jpeg getopt_jpeg.
Proof. repeat split; cbn; lia. Defined.

Lemma application_mode_glxgears (c : ascii) (rest : string) :
  application_mode 1024 (world_reply c rest) argv_glxgears sample_status
    sample_config getopt_glxgears.
Proof. repeat split; cbn; lia. Defined.

Lemma first_reply_sample (c : ascii) (rest : string) :
  first_reply (world_reply c rest) 1 c rest [].
Proof. reflexivity. Defined.

(** The scenario of the specification: app --flag, verdict Y, method jpeg,
    display :0, driver path /usr/lib. *)
Lemma redirect_wrapper_argv_witness :
  Ev_bb_run_fork_wait
    ["vglrun"; "-c"; "jpeg"; "-d"; ":0"; "-ld"; "/usr/lib"; "--";
     "app"; "--flag"]
  ∈ (run 1024 (world_reply "Y" "es") argv_jpeg).1.
Proof.
  apply (redirect_wrapper_argv 1024 (world_reply "Y" "es") argv_jpeg
           sample_status config_jpeg getopt_jpeg 1 "es" []).
  - apply application_mode_jpeg.
  - apply first_reply_sample.
  - reflexivity.
Defined.

(** The scenario of the specification: glxgears, verdict N. *)
Lemma allow_direct_argv_witness :
  ∃ args : list string,
    spawns (run 1024 (world_reply "N" "o") argv_glxgears).1
    = [Ev_bb_run_exec args]
    ∧ (w_exec_fails (world_reply "N" "o") = false →
       (run 1024 (world_reply "N" "o") argv_glxgears).2 = Replaced args)
    ∧ length args = 1%nat
    ∧ (∀ i : nat, args !! i = argv_glxgears !! (1 + i)%nat)
    ∧ args = ["glxgears"].
Proof.
  exact (allow_direct_argv 1024 (world_reply "N" "o") argv_glxgears
           sample_status sample_config getopt_glxgears 1 "o" []
           (application_mode_glxgears "N" "o") (first_reply_sample "N" "o")).
Defined.

(** With the method jpeg the companion is spawned, then the wrapper. *)
Lemma companion_unless_proxy_witness :
  spawns (run 1024 (world_reply "Y" "es") argv_jpeg).1
  = [Ev_bb_run_fork ["vglclient"; "-detach"];
     Ev_bb_run_fork_wait
       ["vglrun"; "-c"; "jpeg"; "-d"; ":0"; "-ld"; "/usr/lib"; "--";
        "app"; "--flag"]].
Proof.
  apply (companion_unless_proxy 1024 (world_reply "Y" "es") argv_jpeg
           sample_status config_jpeg getopt_jpeg 1 "es" []).
  - apply application_mode_jpeg.
  - apply first_reply_sample.
  - reflexivity.
  - lia.
  - discriminate.
Defined.

(** The reply Error, five bytes that start with neither Y nor N: nothing is
    run, and the error logged carries the reply followed by the rest of the
    request, which the buffer still holds. *)
Lemma unknown_verdict_runs_nothing_witness :
  spawns (run 1024 (world_reply "E" "rror") argv_glxgears).1 = []
  ∧ ∃ before : list event,
      spawns before = []
      ∧ (run 1024 (world_reply "E" "rror") argv_glxgears).1
        = before
            ++ [Ev_bb_log LOG_ERR "Problem: %*s\n"
                  ["Erroring availability..."];
                Ev_socketClose; Ev_bb_closelog; Ev_bb_stop_all].
Proof.
  destruct (unknown_verdict_runs_nothing 1024 (world_reply "E" "rror")
              argv_glxgears sample_status sample_config getopt_glxgears
              1 "E" "rror" []) as (Hspawns & Htrace & _).
  - apply application_mode_glxgears.
  - apply first_reply_sample.
  - discriminate.
  - discriminate.
  - split; [exact Hspawns | exact Htrace].
Defined.

Lemma unknown_verdict_exits_zero_witness :
  (run 1024 (world_reply "E" "rror") argv_glxgears).2 = Exited 0.
Proof.
  apply (unknown_verdict_exits_zero 1024 (world_reply "E" "rror")
           argv_glxgears sample_status sample_config getopt_glxgears
           1 "E" "rror" []).
  - apply application_mode_glxgears.
  - apply first_reply_sample.
  - discriminate.
  - discriminate.
Defined.

(** optirun alone: the status of the daemon is asked for. *)
Lemma no_command_asks_status_witness :
  requests (run 1024 (world_reply "R" "eady") ["optirun"]).1
  = [("Status?", 7%Z)].
Proof.
  apply (no_command_asks_status 1024 (world_reply "R" "eady") ["optirun"]
           sample_status sample_config getopt_glxgears).
  - reflexivity.
  - cbn. lia.
  - lia.
  - reflexivity.
  - cbn. lia.
Defined.

(** The daemon is not running. *)
Lemma connection_failure_is_fatal_witness :
  (run 1024 world_unreachable argv_glxgears).2 = Exited 1
  ∧ requests (run 1024 world_unreachable argv_glxgears).1 = [].
Proof.
  destruct (connection_failure_is_fatal 1024 world_unreachable argv_glxgears
              sample_status sample_config getopt_glxgears)
    as (Hrun & _ & Hreq & _).
  - reflexivity.
  - reflexivity.
  - cbn. lia.
  - split; [by rewrite Hrun | exact Hreq].
Defined.

(** The array built for app --flag has eleven cells. *)
Lemma wrapper_array_in_bounds_witness :
  ∃ a : list cell,
    build_vglrun_args argv_jpeg 7 config_jpeg = Some a
    ∧ length a = 11%nat
    ∧ a !! 10%nat = Some Null.
Proof.
  destruct (wrapper_array_in_bounds argv_jpeg 7 config_jpeg)
    as (_ & a & Hbuild & Hlen & _ & _ & Hnull & _).
  - cbn. lia.
  - exists a. split; [exact Hbuild|]. split; [exact Hlen | exact Hnull].
Defined.

(** The reply Yes on an open connection: two reads, the second one
    dispatched, the connection closed once. *)
Lemma first_reply_ends_loop_witness :
  reads_done
    (app_loop 1024 (world_reply "Y" "es") argv_jpeg 7 config_jpeg
       (replicate 1 rd_nothing ++ rd_data "Y" "es" :: [rd_data "N" "o"])
       (snprintf_mem [] 1024 "Checking availability...")
       (set_socket 3 sample_status)).1
  = 2%nat.
Proof.
  apply (first_reply_ends_loop 1024 (world_reply "Y" "es") argv_jpeg 7
           config_jpeg 1 "Y" "es" [rd_data "N" "o"]
           (snprintf_mem [] 1024 "Checking availability...")
           (set_socket 3 sample_status)).
  - discriminate.
  - cbn. lia.
Defined.

(** C5, as the specification has it, fails for the verdict Y: the branch
    spawns vglclient, runs vglrun and waits for it, and only then closes the
    connection. *)
Lemma redirect_closes_after_wait :
  (verdict_switch 1024 (world_reply "Y" "es") argv_jpeg 7 config_jpeg
     "Y" (poke (snprintf_mem [] 1024 "Checking availability...")
            (list_ascii_of_string "Yes"))
     (set_socket 3 sample_status)).1
  = [Ev_bb_log LOG_INFO "Running application through vglrun.\n" [];
     Ev_bb_run_fork ["vglclient"; "-detach"];
     Ev_bb_run_fork_wait
       ["vglrun"; "-c"; "jpeg"; "-d"; ":0"; "-ld"; "/usr/lib"; "--";
        "app"; "--flag"];
     Ev_socketClose]
  ∧ closes_first
      (verdict_switch 1024 (world_reply "Y" "es") argv_jpeg 7 config_jpeg
         "Y" (poke (snprintf_mem [] 1024 "Checking availability...")
                (list_ascii_of_string "Yes"))
         (set_socket 3 sample_status)).1
    = false.
Proof. split; reflexivity. Qed.

(** ** More concrete runs *)

Lemma runmode_follows_command_witness :
  runmode (resolve_runmode (length argv_glxgears) getopt_glxgears
             sample_status)
  = BB_RUN_APP.
Proof.
  apply (runmode_follows_command 1024 (world_reply "N" "o") argv_glxgears
           sample_status sample_config getopt_glxgears).
  reflexivity.
Defined.

(** optirun -v -v -v glxgears -v: three -v leave VERB_INFO, and the -v after
    the command is not an option of optirun. *)
Lemma verbose_flags_alternate_witness :
  parse_options 1024 (world_reply "N" "o")
    ["optirun"; "-v"; "-v"; "-v"; "glxgears"; "-v"]
  = Parsed (set_verbosity VERB_INFO sample_status) sample_config
      {| optind := 4; nextchar := ""; optarg := "" |}.
Proof.
  apply (verbose_flags_alternate 1024 (world_reply "N" "o") "optirun" 3
           ["glxgears"; "-v"]).
  intros x [= <-]. by right.
Defined.

Lemma optind_within_argv_witness :
  (1 ≤ 7 ≤ length argv_jpeg)%nat
  ∧ drop 7 argv_jpeg = ["app"; "--flag"].
Proof.
  destruct (optind_within_argv 1024 (world_reply "Y" "es") argv_jpeg
              sample_status config_jpeg getopt_jpeg) as (Hoi & _).
  - discriminate.
  - reflexivity.
  - split; [exact Hoi | reflexivity].
Defined.

Lemma options_fit_buffers_witness : config_fits 1024 config_jpeg.
Proof.
  apply (options_fit_buffers 1024 (world_reply "Y" "es") argv_jpeg
           sample_status config_jpeg getopt_jpeg).
  - repeat split; cbn; lia.
  - reflexivity.
Defined.

Lemma method_option_forms_witness :
  parse_options 1024 (world_reply "Y" "es") ["optirun"; "-mjpeg"; "--"; "app"]
  = Parsed sample_status
      (set_vgl_compress "jpeg" sample_config)
      {| optind := 3; nextchar := ""; optarg := "jpeg" |}.
Proof.
  apply (method_option_forms 1024 (world_reply "Y" "es") "optirun" "jpeg"
           ["app"]).
  discriminate.
Defined.

(** optirun -V: the letter is in the option string, the switch rejects it. *)
Lemma unhandled_option_fails_witness :
  (run 1024 (world_reply "Y" "es") ["optirun"; "-V"]).2 = Exited 1.
Proof.
  rewrite (unhandled_option_fails 1024 (world_reply "Y" "es") "optirun" "V"
             "" []).
  - reflexivity.
  - reflexivity.
  - discriminate.
Defined.

Lemma status_mode_sample (c : ascii) (rest : string) :
  status_mode 1024 (world_reply c rest) ["optirun"] sample_status
    sample_config getopt_glxgears.
Proof. repeat split; cbn; lia. Defined.

Lemma status_run_witness :
  run 1024 (world_reply "R" "eady") ["optirun"]
  = (startup sample_status sample_config
       ++ [Ev_socketWrite "Status?" 7; Ev_socketRead; Ev_socketRead;
           Ev_printf "Bumblebee status: %*s\n" ["Readys?"];
           Ev_socketClose; Ev_bb_closelog; Ev_bb_stop_all],
     Exited 0).
Proof.
  exact (status_run 1024 (world_reply "R" "eady") ["optirun"] sample_status
           sample_config getopt_glxgears 1 "R" "eady" []
           (status_mode_sample "R" "eady") (first_reply_sample "R" "eady")).
Defined.

Lemma closed_before_reply_witness :
  (run 1024 world_closed argv_glxgears).2 = Exited 0
  ∧ spawns (run 1024 world_closed argv_glxgears).1 = [].
Proof.
  rewrite (closed_before_reply 1024 world_closed argv_glxgears sample_status
             sample_config getopt_glxgears 1 []).
  - split; reflexivity.
  - repeat split; cbn; lia.
  - reflexivity.
Defined.

Lemma write_failure_skips_loop_witness :
  reads_done (run 1024 world_write_fails argv_glxgears).1 = 0%nat.
Proof.
  apply (write_failure_skips_loop 1024 world_write_fails argv_glxgears
           sample_status sample_config getopt_glxgears).
  - reflexivity.
  - cbn. lia.
  - reflexivity.
  - cbn. lia.
  - reflexivity.
Defined.

Lemma log_failure_is_fatal_witness :
  (run 1024 world_no_log argv_glxgears).2 = Exited 1.
Proof.
  rewrite (log_failure_is_fatal 1024 world_no_log argv_glxgears sample_status
             sample_config getopt_glxgears).
  - reflexivity.
  - reflexivity.
  - discriminate.
Defined.

Lemma redirect_cleanup_witness :
  (run 1024 (world_reply "Y" "es") argv_jpeg).2 = Exited 0.
Proof.
  apply (redirect_cleanup 1024 (world_reply "Y" "es") argv_jpeg sample_status
           config_jpeg getopt_jpeg 1 "es" []).
  - apply application_mode_jpeg.
  - apply first_reply_sample.
Defined.

Lemma allow_closes_before_exec_witness :
  Ev_bb_stop_all ∉ (run 1024 (world_reply "N" "o") argv_glxgears).1.
Proof.
  apply (allow_closes_before_exec 1024 (world_reply "N" "o") argv_glxgears
           sample_status sample_config getopt_glxgears 1 "o" []).
  - apply application_mode_glxgears.
  - apply first_reply_sample.
Defined.

Lemma application_asks_once_witness :
  requests (run 1024 (world_reply "E" "rror") argv_glxgears).1
  = [("Checking availability...", 24%Z)].
Proof.
  apply (application_asks_once 1024 (world_reply "E" "rror") argv_glxgears
           sample_status sample_config getopt_glxgears).
  - reflexivity.
  - cbn. lia.
  - reflexivity.
  - cbn. lia.
  - lia.
Defined.

Lemma status_never_spawns_witness :
  spawns (run 1024 (world_reply "Y" "es") ["optirun"; "-v"]).1 = [].
Proof.
  apply (status_never_spawns 1024 (world_reply "Y" "es") ["optirun"; "-v"]
           (set_verbosity VERB_INFO sample_status) sample_config
           {| optind := 2; nextchar := ""; optarg := "" |}).
  - reflexivity.
  - cbn. lia.
Defined.

Lemma quiet_is_unreachable_witness :
  verbosity (set_verbosity VERB_INFO sample_status) ≠ VERB_NONE.
Proof.
  apply (quiet_is_unreachable 1024 (world_reply "Y" "es") ["optirun"; "-v"]
           (set_verbosity VERB_INFO sample_status) sample_config
           {| optind := 2; nextchar := ""; optarg := "" |}).
  reflexivity.
Defined.

